(** * DEER fixed-point iteration (src/deer/deer_iter.py, src/deer/fsolve_idae.py)

    A shallow embedding of [deer_iteration], [deer_iteration_helper] and its
    local functions [iter_func] / [cond_func], of the custom JVP rule
    [deer_iteration_jvp], and of [DEER.solve_idae_inv_lin].

    Arrays are lists: a sequence of shape (nsamples, ny) is a [list (list A)],
    a batch of (ny, ny) matrices a [list (list (list A))].  Scalars live in a
    type class [Num]: [flt] models the special values of IEEE arithmetic
    (infinities and NaN) over exact rationals, [Qc] is exact arithmetic.
    Rounding is not modelled.  Python exceptions are the error monad [res]. *)

From Stdlib Require Import QArith Qcanon List Bool ZArith Lia.
Import ListNotations.

(** ** Python exceptions *)

Inductive exn : Type := ValueError | TypeError | IndexError.

Inductive res (T : Type) : Type :=
| Ok (v : T)
| Err (e : exn).
Arguments Ok {T} v.
Arguments Err {T} e.

Definition bind {T U : Type} (m : res T) (k : T -> res U) : res U :=
  match m with Ok v => k v | Err e => Err e end.

Notation "x <- m ;; k" := (bind m (fun x => k))
  (at level 61, m at next level, right associativity).

Fixpoint mapM {T U : Type} (f : T -> res U) (l : list T) : res (list U) :=
  match l with
  | [] => Ok []
  | x :: xs => y <- f x ;; ys <- mapM f xs ;; Ok (y :: ys)
  end.

(** ** Scalars *)

Class Num (A : Type) : Type := {
  fzero : A;
  fconst : Q -> A;
  fadd : A -> A -> A;
  fsub : A -> A -> A;
  fmul : A -> A -> A;
  fneg : A -> A;
  fabs : A -> A;
  fmaximum : A -> A -> A;   (* jnp.maximum *)
  fminimum : A -> A -> A;   (* jnp.minimum *)
  fgt : A -> A -> bool;     (* the comparison [>] *)
  fisnan : A -> bool        (* jnp.isnan *)
}.

Definition Qc_ltb (a b : Qc) : bool :=
  if Qclt_le_dec a b then true else false.

(** Exact arithmetic. *)
#[export] Instance Num_Qc : Num Qc := {
  fzero := 0%Qc;
  fconst := Q2Qc;
  fadd := Qcplus;
  fsub := Qcminus;
  fmul := Qcmult;
  fneg := Qcopp;
  fabs := fun a => if Qc_ltb a 0 then Qcopp a else a;
  fmaximum := fun a b => if Qc_ltb a b then b else a;
  fminimum := fun a b => if Qc_ltb b a then b else a;
  fgt := fun a b => Qc_ltb b a;
  fisnan := fun _ => false
}.

(** IEEE special values over exact finite values. *)
Inductive flt : Type :=
| Fin (q : Qc)
| Inf (pos : bool)
| NaN.

Definition flt_add (x y : flt) : flt :=
  match x, y with
  | NaN, _ | _, NaN => NaN
  | Fin a, Fin b => Fin (a + b)%Qc
  | Inf s, Fin _ | Fin _, Inf s => Inf s
  | Inf s, Inf t => if Bool.eqb s t then Inf s else NaN
  end.

Definition flt_neg (x : flt) : flt :=
  match x with Fin a => Fin (- a)%Qc | Inf s => Inf (negb s) | NaN => NaN end.

Definition flt_mul (x y : flt) : flt :=
  match x, y with
  | NaN, _ | _, NaN => NaN
  | Fin a, Fin b => Fin (a * b)%Qc
  | Fin a, Inf s | Inf s, Fin a =>
      if Qc_eq_bool a 0 then NaN else Inf (Bool.eqb (Qc_ltb 0 a) s)
  | Inf s, Inf t => Inf (Bool.eqb s t)
  end.

(** Strict order on non-NaN values. *)
Definition flt_lt (x y : flt) : bool :=
  match x, y with
  | NaN, _ | _, NaN => false
  | Fin a, Fin b => Qc_ltb a b
  | Inf false, Inf true => true
  | Inf false, Fin _ | Fin _, Inf true => true
  | _, _ => false
  end.

Definition flt_isnan (x : flt) : bool :=
  match x with NaN => true | _ => false end.

#[export] Instance Num_flt : Num flt := {
  fzero := Fin 0;
  fconst := fun q => Fin (Q2Qc q);
  fadd := flt_add;
  fsub := fun x y => flt_add x (flt_neg y);
  fmul := flt_mul;
  fneg := flt_neg;
  fabs := fun x => match x with
                   | Fin a => Fin (if Qc_ltb a 0 then - a else a)%Qc
                   | Inf _ => Inf true
                   | NaN => NaN end;
  fmaximum := fun x y => if flt_isnan x || flt_isnan y then NaN
                         else if flt_lt x y then y else x;
  fminimum := fun x y => if flt_isnan x || flt_isnan y then NaN
                         else if flt_lt y x then y else x;
  fgt := fun x y => flt_lt y x;
  fisnan := flt_isnan
}.

(** ** Arrays *)

Fixpoint zip_with {T U V : Type} (f : T -> U -> V) (l1 : list T) (l2 : list U)
  : list V :=
  match l1, l2 with
  | x :: xs, y :: ys => f x y :: zip_with f xs ys
  | _, _ => []
  end.

Section Arrays.
Context {A : Type} `{Num A}.

Definition vadd : list A -> list A -> list A := zip_with fadd.
Definition vsub : list A -> list A -> list A := zip_with fsub.
Definition vneg : list A -> list A := map fneg.
Definition vscale (a : A) : list A -> list A := map (fmul a).

(** einsum "...ij,...j->...i" on one sample. *)
Definition dot (r v : list A) : A := fold_right fadd fzero (zip_with fmul r v).
Definition matvec (M : list (list A)) (v : list A) : list A :=
  map (fun r => dot r v) M.

(** einsum "...ij,...jk->...ik" on one sample: row i of the product is
    sum_j M_ij * (row j of N). *)
Definition matmul (M N : list (list A)) : list (list A) :=
  let m := match N with [] => 0%nat | row :: _ => length row end in
  map (fun r => fold_right vadd (repeat fzero m) (zip_with vscale r N)) M.

Definition mneg (M : list (list A)) : list (list A) := map vneg M.

(** [jnp.eye(n)] *)
Definition eye (n : nat) : list (list A) :=
  map (fun i => map (fun j => if Nat.eqb i j then fconst 1 else fzero) (seq 0 n)) (seq 0 n).

(** The array has shape (n, n). *)
Definition sq_shape (n : nat) (M : list (list A)) : bool :=
  Nat.eqb (length M) n && forallb (fun r => Nat.eqb (length r) n) M.

End Arrays.

Fixpoint list_eqb {T : Type} (eqb : T -> T -> bool) (l1 l2 : list T) : bool :=
  match l1, l2 with
  | [], [] => true
  | x :: xs, y :: ys => eqb x y && list_eqb eqb xs ys
  | _, _ => false
  end.

(** Exact equality of two rational matrices. *)
Definition mat_eqb (M N : list (list Qc)) : bool := list_eqb (list_eqb Qc_eq_bool) M N.

(** ** [DEER.solve_idae_inv_lin] (src/deer/fsolve_idae.py, lines 131-146) *)

Section SolveIDAE.
Context {A : Type} `{Num A}.

(** Modelled from the spec: [deer.maths.matmul_recursive] (not in src/).
    Section 4.4: it evaluates [y_i = A_i y_{i-1} + b_i] from the base case
    [y_0] and returns the whole sequence, [y_0] first; the spec requires the
    result to match the direct sequential unrolling, which is what is
    written here (the parallel composition order is not modelled). *)
Fixpoint matmul_recursive_from (mats : list (list (list A))) (vecs : list (list A))
    (y : list A) : list (list A) :=
  match mats, vecs with
  | m :: ms, b :: bs =>
      let y' := vadd (matvec m y) b in y' :: matmul_recursive_from ms bs y'
  | _, _ => []
  end.

Definition matmul_recursive (mats : list (list (list A))) (vecs : list (list A))
    (y0 : list A) : list (list A) :=
  y0 :: matmul_recursive_from mats vecs y0.

(** [jnp.linalg.inv] on one (ny, ny) matrix. *)
Variable linalg_inv : list (list A) -> list (list A).

(** [M0, M1 = jacs] and [y0, = inv_lin_params] raise ValueError on a
    list or tuple of another length. *)
Definition solve_idae_inv_lin (jacs : list (list (list (list A))))
    (z : list (list A)) (inv_lin_params : list (list A)) : res (list (list A)) :=
  match jacs, inv_lin_params with
  | [M0; M1], [y0] =>
      let M0inv := map linalg_inv (tl M0) in
      let M0invM1 := map mneg (zip_with matmul M0inv (tl M1)) in
      let M0invz := zip_with matvec M0inv (tl z) in
      Ok (matmul_recursive M0invM1 M0invz y0)
  | _, _ => Err ValueError
  end.

End SolveIDAE.

(** ** The local functions of [DEER.compute] (src/deer/fsolve_idae.py, lines 85-129)

    [compute] passes them to [deer_mode2_iteration], which is not in src/;
    only the local functions are embedded here. *)

(** [linfunc] (lines 104-108): [ym1 = jnp.concatenate((y[:1], y[:-1]), axis=0)]
    and the shift set [[y, ym1]]; [lin_params] is not used. *)
Definition linfunc {A LP : Type} (y : list (list A)) (_ : LP) : list (list (list A)) :=
  [y; firstn 1 y ++ firstn (length y - 1) y].

(** Lines 111-112: [dt_partial = tpts[1:] - tpts[:-1]] and
    [dt = jnp.concatenate((dt_partial[:1], dt_partial), axis=0)]. *)
Definition compute_dt {A : Type} `{Num A} (tpts : list A) : list A :=
  let dt_partial := vsub (skipn 1 tpts) (firstn (length tpts - 1) tpts) in
  firstn 1 dt_partial ++ dt_partial.

(** [func2] of [compute] (lines 97-102) over exact rationals:
    [y, ym1 = yshifts] (ValueError on a list of another length),
    [dt, xinp = x] and [func((y - ym1) / dt, y, xinp, params)].  Division
    by a zero [dt] is not IEEE here ([Qc] gives 0). *)
Definition compute_func2 {X P : Type}
    (func : list Qc -> list Qc -> X -> P -> res (list Qc))
    (yshifts : list (list Qc)) (x : Qc * X) (params : P) : res (list Qc) :=
  match yshifts with
  | [y; ym1] => func (map (fun a => (a / fst x)%Qc) (vsub y ym1)) y (snd x) params
  | _ => Err ValueError
  end.

(** ** [deer_iteration] (src/deer/deer_iter.py) *)

Inductive dtype : Type := float16 | bfloat16 | float32 | float64.

Definition dtype_eqb (a b : dtype) : bool :=
  match a, b with
  | float16, float16 | bfloat16, bfloat16
  | float32, float32 | float64, float64 => true
  | _, _ => false
  end.

(** [tol = 1e-7 if dtype == jnp.float64 else 1e-4] (line 102). *)
Definition tol_of (dt : dtype) : Q :=
  if dtype_eqb dt float64 then 1 # 10000000 else 1 # 10000.

(** The carry of the while loop: [(err, yt, gts, iiter)]. *)
Record carry (A : Type) : Type := mkCarry {
  c_err : A;
  c_yt : list (list A);
  c_gts : list (list (list (list A)));
  c_iiter : Z
}.
Arguments mkCarry {A}.
Arguments c_err {A}.
Arguments c_yt {A}.
Arguments c_gts {A}.
Arguments c_iiter {A}.

(** [max_iter] as an int32: [cond_func] compares the int32 counter [iiter]
    with [max_iter] converted to int32, which wraps (or raises) for values
    outside [-2^31, 2^31).  The embedding counts in [Z]; it agrees with the
    code when [fits_int32 max_iter = true], which the loop theorems assume. *)
Definition fits_int32 (z : Z) : bool :=
  (-2147483648 <=? z)%Z && (z <? 2147483648)%Z.

Section Deer.
Context {A : Type} `{Num A}.
Context {X P IP SP : Type}.

(** The caller's functions.  [jacfwd_func] is [jax.jacfwd(func, argnums=0)]:
    one (ny, ny) block per shifted argument. *)
Variable func : list (list A) -> X -> P -> res (list A).
Variable jacfwd_func : list (list A) -> X -> P -> res (list (list (list A))).
Variable shifter_func : list (list A) -> SP -> res (list (list (list A))).
Variable inv_lin : list (list (list (list A))) -> list (list A) -> IP -> res (list (list A)).

(** The arguments of [deer_iteration_helper]; [xinput] holds one input per
    sample and [yinit_dtype] is [yinit_guess.dtype]. *)
Variable p_num : nat.
Variable params : P.
Variable xinput : list X.
Variable inv_lin_params : IP.
Variable shifter_func_params : SP.
Variable yinit_guess : list (list A).
Variable yinit_dtype : dtype.
Variable max_iter : Z.
Variable clip_ytnext : bool.

(** [jax.vmap] with [in_axes=(0, 0, None)]: mapped axes must agree in size. *)
Definition vmap_in (ys : list (list (list A))) (xs : list X)
    : res (list (list (list A) * X)) :=
  let n := length xs in
  if forallb (fun s => Nat.eqb (length s) n) ys
  then Ok (map (fun ix => (map (fun s => nth (fst ix) s []) ys, snd ix))
               (combine (seq 0 n) xs))
  else Err ValueError.

(** [func2 = jax.vmap(func, in_axes=(0, 0, None))] *)
Definition func2 (ys : list (list (list A))) (xs : list X) (th : P)
    : res (list (list A)) :=
  args <- vmap_in ys xs ;;
  mapM (fun sx => func (fst sx) (snd sx) th) args.

(** [jacfunc = jax.vmap(jax.jacfwd(func, argnums=0), in_axes=(0, 0, None))]:
    one (nsamples, ny, ny) array per shifted argument. *)
Definition jacfunc (ys : list (list (list A))) (xs : list X) (th : P)
    : res (list (list (list (list A)))) :=
  args <- vmap_in ys xs ;;
  outs <- mapM (fun sx => jacfwd_func (fst sx) (snd sx) th) args ;;
  Ok (map (fun k => map (fun o => nth k o []) outs) (seq 0 (length ys))).

Definition seq_add : list (list A) -> list (list A) -> list (list A) := zip_with vadd.
Definition seq_sub : list (list A) -> list (list A) -> list (list A) := zip_with vsub.

(** [jnp.einsum("...ij,...j->...i", gt, ytp)] *)
Definition einsum_seq (gt : list (list (list A))) (ytp : list (list A))
    : list (list A) := zip_with matvec gt ytp.

(** Python's [sum(terms)]: [0 + t1 + t2 + ...], the int [0] broadcast;
    [None] stands for the int [0] itself (empty list). *)
Definition py_sum (terms : list (list (list A))) : option (list (list A)) :=
  match terms with
  | [] => None
  | t :: ts => Some (fold_left seq_add ts (map (map (fadd fzero)) t))
  end.

(** [rhs += s] *)
Definition rhs_iadd (rhs : list (list A)) (s : option (list (list A))) : list (list A) :=
  match s with
  | None => map (map (fun a => fadd a fzero)) rhs
  | Some t => seq_add rhs t
  end.

(** The same [sum(...)] and [+=] on the vectors of one sample. *)
Definition py_sum_vec (terms : list (list A)) : option (list A) :=
  match terms with
  | [] => None
  | t :: ts => Some (fold_left vadd ts (map (fadd fzero) t))
  end.

Definition vec_iadd (r : list A) (s : option (list A)) : list A :=
  match s with
  | None => map (fun a => fadd a fzero) r
  | Some t => vadd r t
  end.

(** [jnp.clip(y, min=-1e8, max=1e8)] then [jnp.where(jnp.isnan(y), 0.0, y)]. *)
Definition clip_entry (a : A) : A :=
  let c := fminimum (fmaximum a (fconst (-100000000 # 1))) (fconst (100000000 # 1)) in
  if fisnan c then fconst 0 else c.

(** [jnp.max] over all entries: NaN propagates; a zero-size array raises. *)
Definition jmax (y : list (list A)) : res A :=
  match concat y with
  | [] => Err ValueError
  | a :: l => Ok (fold_left fmaximum l a)
  end.

Definition tol : A := fconst (tol_of yinit_dtype).

(** Lines 110-115 of [iter_func] before the call to [inv_lin]: the shift
    set, the Jacobian bundle and the right-hand side. *)
Definition linearize (yt : list (list A))
    : res (list (list (list A)) * list (list (list (list A))) * list (list A)) :=
  ytparams <- shifter_func yt shifter_func_params ;;
  jacs <- jacfunc ytparams xinput params ;;
  let gts := map (map mneg) jacs in
  rhs <- func2 ytparams xinput params ;;
  Ok (ytparams, gts, rhs_iadd rhs (py_sum (zip_with einsum_seq gts ytparams))).

(** [iter_func] (lines 105-127). *)
Definition iter_func (s : carry A) : res (carry A) :=
  lin <- linearize (c_yt s) ;;
  let gts := snd (fst lin) in
  let rhs := snd lin in
  yt_next <- inv_lin gts rhs inv_lin_params ;;
  let yt_next := if clip_ytnext then map (map clip_entry) yt_next else yt_next in
  err <- jmax (map (map fabs) (seq_sub yt_next (c_yt s))) ;;
  Ok (mkCarry err yt_next gts (c_iiter s + 1)).

(** [cond_func] (lines 129-131), for [max_iter] in the int32 range (see
    [fits_int32]): the code's [jnp.int32] counter and the cast [max_iter]
    then compare as these integers do. *)
Definition cond_func (s : carry A) : bool :=
  fgt (c_err s) tol && Z.ltb (c_iiter s) max_iter.

(** The iterations of [jax.lax.while_loop]; [fuel] only bounds the
    recursion, see [while_run_fuel] below. *)
Fixpoint while_run (fuel : nat) (s : carry A) : res (carry A) :=
  match fuel with
  | O => Ok s
  | S n => if cond_func s then (s' <- iter_func s ;; while_run n s') else Ok s
  end.

(** [n] runs of the loop body, one after the other. *)
Fixpoint iterate (n : nat) (s : carry A) : res (carry A) :=
  match n with
  | O => Ok s
  | S m => s' <- iter_func s ;; iterate m s'
  end.

Definition carry_shape (s : carry A) : list nat * list (list (list nat)) :=
  (map (@length A) (c_yt s), map (map (map (@length A))) (c_gts s)).

Definition shape_eqb (a b : list nat * list (list (list nat))) : bool :=
  (if list_eq_dec Nat.eq_dec (fst a) (fst b) then true else false) &&
  (if list_eq_dec (list_eq_dec (list_eq_dec Nat.eq_dec)) (snd a) (snd b)
   then true else false).

(** The trace of the body on [init] succeeds and keeps the carry's
    structure (see [while_loop]). *)
Definition traces_ok (init : carry A) : bool :=
  match iter_func init with
  | Err _ => false
  | Ok s' => shape_eqb (carry_shape s') (carry_shape init)
  end.

(** [jax.lax.while_loop(cond_func, iter_func, init)]: the body is traced on
    the initial carry first (its structural errors are raised then, and a
    body whose output carry differs in structure from its input raises
    TypeError); the iterations run afterwards. *)
Definition while_loop (init : carry A) : res (carry A) :=
  match iter_func init with
  | Err e => Err e
  | Ok s' => if shape_eqb (carry_shape s') (carry_shape init)
             then while_run (Z.to_nat max_iter) init
             else Err TypeError
  end.

Definition ny_of (y : list (list A)) : nat :=
  match y with [] => 0 | r :: _ => length r end.

(** Lines 133-136. *)
Definition init_carry : carry A :=
  let ny := ny_of yinit_guess in
  let gt := repeat (repeat (repeat fzero ny) ny) (length yinit_guess) in
  mkCarry (fconst (10000000000 # 1)) yinit_guess (repeat gt p_num) 0.

(** [deer_iteration_helper] returns [(yt, gts, func)]; [func] is omitted. *)
Definition deer_iteration_helper : res (list (list A) * list (list (list (list A)))) :=
  s <- while_loop init_carry ;;
  Ok (c_yt s, c_gts s).

Definition deer_iteration : res (list (list A)) :=
  r <- deer_iteration_helper ;; Ok (fst r).

(** *** [deer_iteration_jvp] (lines 142-187) *)

Context {TX TP TIP TSP : Type}.
(** [jax.jvp] of [func] in [(x, params)] for one sample, and of [inv_lin]
    in [(rhs, inv_lin_params)] with the Jacobian blocks fixed. *)
Variable func_jvp : list (list A) -> X -> P -> TX -> TP -> res (list A).
Variable inv_lin_jvp : list (list (list (list A))) -> list (list A) -> IP ->
                       list (list A) -> TIP -> res (list (list A)).

Definition deer_iteration_jvp (grad_params : TP) (grad_xinput : list TX)
    (grad_inv_lin_params : TIP) (grad_shifter_func_params : TSP)
    (grad_yinit_guess : list (list A)) : res (list (list A) * list (list A)) :=
  r <- deer_iteration_helper ;;
  let yt := fst r in
  let gts := snd r in
  ytparams <- shifter_func yt shifter_func_params ;;
  args <- vmap_in ytparams xinput ;;
  grad_func <- mapM (fun a => func_jvp (fst (fst a)) (snd (fst a)) params (snd a) grad_params)
                    (combine args grad_xinput) ;;
  rhs0 <- match gts with
          | [] => Err IndexError
          | g0 :: _ => Ok (map (map (fun _ => fzero)) g0)
          end ;;
  grad_yt <- inv_lin_jvp gts rhs0 inv_lin_params grad_func grad_inv_lin_params ;;
  Ok (yt, grad_yt).

End Deer.


(** * Small instances (nsamples = 1, ny = 1) used by the examples below *)

Module Inst.
Open Scope Qc_scope.

(** [shifter_func = lambda y, p: [y]] *)
Definition shifter_id {A : Type} (y : list (list A)) (_ : unit)
  : res (list (list (list A))) := Ok [y].

(** [shifter_func = lambda y, q: [y + q]] *)
Definition shifter_add (y : list (list Qc)) (q : Qc) : res (list (list (list Qc))) :=
  Ok [map (map (fun a => a + q)) y].

Definition half : Qc := Q2Qc (1 # 2).

(** [func = lambda ys, x, p: 0.5 * ys[0] + x] (affine) and its Jacobian;
    [ys, = ...] raises on a list of another length. *)
Definition func_aff (ys : list (list Qc)) (x : Qc) (_ : unit) : res (list Qc) :=
  match ys with [s] => Ok (map (fun a => half * a + x) s) | _ => Err ValueError end.
Definition jac_aff (ys : list (list Qc)) (x : Qc) (_ : unit)
  : res (list (list (list Qc))) :=
  match ys with [[_]] => Ok [[[half]]] | _ => Err ValueError end.

(** [inv_lin] solving [y + G y = rhs] sample by sample (ny = 1), and its JVP
    in [(rhs, inv_lin_params)]. *)
Definition inv_lin_1 (gts : list (list (list (list Qc)))) (rhs : list (list Qc)) (_ : unit)
  : res (list (list Qc)) :=
  match gts with
  | [G] => Ok (zip_with (fun g r => match g, r with
                                    | [[g0]], [r0] => [r0 / (1 + g0)]
                                    | _, _ => r end) G rhs)
  | _ => Err ValueError
  end.
Definition inv_lin_1_jvp (gts : list (list (list (list Qc)))) (rhs : list (list Qc))
    (p : unit) (drhs : list (list Qc)) (_ : unit) : res (list (list Qc)) :=
  inv_lin_1 gts drhs p.

(** Newton's method on [g(y) = y^3 - 2y + 2], which cycles 0, 1, 0, ...:
    [func = y - g(y)]. *)
Definition func_cyc (ys : list (list Qc)) (_ : unit) (_ : unit) : res (list Qc) :=
  match ys with [s] => Ok (map (fun v => - (v * v * v) + Q2Qc 3 * v - Q2Qc 2) s) | _ => Err ValueError end.
Definition jac_cyc (ys : list (list Qc)) (_ : unit) (_ : unit)
  : res (list (list (list Qc))) :=
  match ys with [[v]] => Ok [[[- (Q2Qc 3 * v * v) + Q2Qc 3]]] | _ => Err ValueError end.

(** Newton's method on [g(y) = -h + y + c y^2] with [h = 1e-8] and [c] such
    that [g'(h) = h^2]: the first step from 0 is [h], the next one is huge. *)
Definition nq_h : Qc := Q2Qc (1 # 100000000).
Definition nq_c : Qc := (nq_h * nq_h - 1) / (Q2Qc 2 * nq_h).
Definition func_nq (ys : list (list Qc)) (_ : unit) (_ : unit) : res (list Qc) :=
  match ys with [s] => Ok (map (fun v => nq_h - nq_c * v * v) s) | _ => Err ValueError end.
Definition jac_nq (ys : list (list Qc)) (_ : unit) (_ : unit)
  : res (list (list (list Qc))) :=
  match ys with [[v]] => Ok [[[- (Q2Qc 2 * nq_c * v)]]] | _ => Err ValueError end.

(** A backward-Euler style [func] written for two shifts,
    [y, ym1 = yshifts] (raises on another number of shifts). *)
Definition func_two (ys : list (list Qc)) (_ : unit) (_ : unit) : res (list Qc) :=
  match ys with [y; ym1] => Ok (map (fun a => half * a) y) | _ => Err ValueError end.
Definition jac_two (ys : list (list Qc)) (_ : unit) (_ : unit)
  : res (list (list (list Qc))) :=
  match ys with [[_]; [_]] => Ok [[[half]]; [[0]]] | _ => Err ValueError end.
Definition shifter_three (y : list (list Qc)) (_ : unit) : res (list (list (list Qc))) :=
  Ok [y; y; y].



(** [func = lambda ys, x, p: ys[0] ** 2 + ys[0]], its Jacobian and its JVP
    in [(x, params)] (zero: [func] reads neither). *)
Definition func_sq (ys : list (list Qc)) (_ : unit) (_ : unit) : res (list Qc) :=
  match ys with [s] => Ok (map (fun v => v * v + v) s) | _ => Err ValueError end.
Definition jac_sq (ys : list (list Qc)) (_ : unit) (_ : unit)
  : res (list (list (list Qc))) :=
  match ys with [[v]] => Ok [[[Q2Qc 2 * v + 1]]] | _ => Err ValueError end.
Definition func_sq_jvp (ys : list (list Qc)) (_ : unit) (_ : unit) (_ : unit) (_ : unit)
  : res (list Qc) :=
  match ys with [s] => Ok (map (fun _ => 0) s) | _ => Err ValueError end.

(** [jnp.linalg.inv] on (1, 1) matrices. *)
Definition inv_1x1 (M : list (list Qc)) : list (list Qc) :=
  match M with [[a]] => [[/ a]] | _ => M end.

End Inst.

(** * Facts about the loop *)

Ltac res_inv E :=
  repeat match type of E with
  | context [match ?m with _ => _ end] =>
      let Hm := fresh "Hm" in destruct m eqn:Hm; try discriminate E
  end.

(** ** List facts *)

Lemma length_zip_with {T U V : Type} (f : T -> U -> V) (l1 : list T) (l2 : list U) :
  length (zip_with f l1 l2) = Nat.min (length l1) (length l2).
Proof.
  revert l2; induction l1 as [|a l1 IH]; intros [|b l2]; simpl; auto.
Qed.

Lemma nth_zip_with {T U V : Type} (f : T -> U -> V) (l1 : list T) (l2 : list U)
    (i : nat) (d1 : T) (d2 : U) (d : V) :
  (i < length l1)%nat -> (i < length l2)%nat ->
  nth i (zip_with f l1 l2) d = f (nth i l1 d1) (nth i l2 d2).
Proof.
  revert l2 i; induction l1 as [|a l1 IH]; intros [|b l2] i H1 H2; simpl in *; try lia.
  destruct i as [|i]; [reflexivity|]. apply IH; lia.
Qed.

Lemma nth_map_nil {T U : Type} (g : list T -> list U) (l : list (list T)) (i : nat) :
  g [] = [] -> nth i (map g l) [] = g (nth i l []).
Proof.
  intro G. revert i; induction l as [|a l IH]; intros [|i]; simpl; auto.
Qed.

Lemma mapM_nth {T U : Type} (f : T -> res U) (l : list T) :
  forall r, mapM f l = Ok r ->
  length r = length l /\
  forall i a, nth_error l i = Some a -> exists b, f a = Ok b /\ nth_error r i = Some b.
Proof.
  induction l as [|a l IH]; intros r E; simpl in E.
  - inversion E; subst. split; [reflexivity|]. intros [|i] b H; discriminate.
  - unfold bind in E. destruct (f a) as [b|e] eqn:Fa; [|discriminate].
    destruct (mapM f l) as [r'|e] eqn:M; [|discriminate]. inversion E; subst.
    destruct (IH r' eq_refl) as [Hl Hn]. split; [simpl; now rewrite Hl|].
    intros [|i] c Hc; simpl in Hc.
    + inversion Hc; subst. exists b. split; [exact Fa | reflexivity].
    + exact (Hn i c Hc).
Qed.

Lemma nth_error_combine_seq {T : Type} (xs : list T) :
  forall k i x, nth_error xs i = Some x ->
  nth_error (combine (seq k (length xs)) xs) i = Some ((k + i)%nat, x).
Proof.
  induction xs as [|a xs IH]; intros k [|i] x Hx; simpl in Hx; try discriminate.
  - inversion Hx; subst. simpl. now rewrite Nat.add_0_r.
  - simpl. rewrite (IH (S k) i x Hx). f_equal. f_equal. lia.
Qed.

Section LinearizeFacts.
Context {A : Type} `{Num A} {X : Type}.

Lemma vmap_in_nth (ys : list (list (list A))) (xs : list X) (args : list (list (list A) * X)) :
  vmap_in ys xs = Ok args ->
  (forall y, In y ys -> length y = length xs) /\
  length args = length xs /\
  forall i x, nth_error xs i = Some x ->
  nth_error args i = Some (map (fun y => nth i y []) ys, x).
Proof.
  unfold vmap_in. destruct (forallb _ ys) eqn:F; [|discriminate]. intro E. inversion E; subst.
  rewrite forallb_forall in F. split; [|split].
  - intros y Hy. apply Nat.eqb_eq. exact (F y Hy).
  - rewrite length_map, length_combine, length_seq. lia.
  - intros i x Hx. rewrite nth_error_map, (nth_error_combine_seq xs 0 i x Hx). reflexivity.
Qed.

Lemma fold_seq_add_nth (i : nat) (ts : list (list (list A))) :
  forall acc, (forall t, In t ts -> (i < length t)%nat) -> (i < length acc)%nat ->
  (i < length (fold_left seq_add ts acc))%nat /\
  nth i (fold_left seq_add ts acc) [] = fold_left vadd (map (fun t => nth i t []) ts) (nth i acc []).
Proof.
  induction ts as [|t ts IH]; intros acc Ht Ha; simpl; [auto|].
  assert (Hi : (i < length t)%nat) by (apply Ht; left; reflexivity).
  destruct (IH (seq_add acc t)) as [L N].
  - intros u Hu. apply Ht. right. exact Hu.
  - unfold seq_add. rewrite length_zip_with. lia.
  - split; [exact L|]. rewrite N. f_equal. unfold seq_add.
    apply nth_zip_with; assumption.
Qed.

Lemma einsum_terms_nth (i : nat) (gts : list (list (list (list A)))) :
  forall yps, (forall g, In g gts -> (i < length g)%nat) ->
  (forall y, In y yps -> (i < length y)%nat) ->
  map (fun t => nth i t []) (zip_with einsum_seq gts yps) =
    zip_with matvec (map (fun g => nth i g []) gts) (map (fun y => nth i y []) yps) /\
  (forall t, In t (zip_with einsum_seq gts yps) -> (i < length t)%nat).
Proof.
  induction gts as [|g gts IH]; intros [|y yps] Hg Hy; simpl; try (split; [reflexivity | tauto]).
  assert (Hi : (i < length g)%nat) by (apply Hg; left; reflexivity).
  assert (Hj : (i < length y)%nat) by (apply Hy; left; reflexivity).
  destruct (IH yps) as [M L]; [intros; apply Hg; right; assumption
                              | intros; apply Hy; right; assumption|].
  split.
  - rewrite M. f_equal. unfold einsum_seq. apply nth_zip_with; assumption.
  - intros t [Ht|Ht]; [|exact (L t Ht)]. subst t. unfold einsum_seq.
    rewrite length_zip_with. lia.
Qed.

Lemma rhs_iadd_nth (i : nat) (fs : list (list A)) (terms : list (list (list A))) :
  (i < length fs)%nat -> (forall t, In t terms -> (i < length t)%nat) ->
  nth i (rhs_iadd fs (py_sum terms)) [] =
    vec_iadd (nth i fs []) (py_sum_vec (map (fun t => nth i t []) terms)).
Proof.
  intros Hf Ht. destruct terms as [|t ts]; simpl.
  - apply nth_map_nil. reflexivity.
  - assert (Hi : (i < length t)%nat) by (apply Ht; left; reflexivity).
    destruct (fold_seq_add_nth i ts (map (map (fadd fzero)) t)) as [L N].
    + intros u Hu. apply Ht. right. exact Hu.
    + rewrite length_map. exact Hi.
    + unfold seq_add at 1. rewrite (nth_zip_with _ _ _ i [] [] [] Hf L), N.
      rewrite nth_map_nil by reflexivity. reflexivity.
Qed.

End LinearizeFacts.

Section DeerFacts.
Context {A : Type} `{Num A} {X P IP SP : Type}.
Variable func : list (list A) -> X -> P -> res (list A).
Variable jacfwd_func : list (list A) -> X -> P -> res (list (list (list A))).
Variable shifter_func : list (list A) -> SP -> res (list (list (list A))).
Variable inv_lin : list (list (list (list A))) -> list (list A) -> IP -> res (list (list A)).
Variable p_num : nat.
Variable params : P.
Variable xinput : list X.
Variable inv_lin_params : IP.
Variable shifter_func_params : SP.
Variable yinit_guess : list (list A).
Variable yinit_dtype : dtype.
Variable max_iter : Z.
Variable clip_ytnext : bool.

#[local] Abbreviation body := (iter_func func jacfwd_func shifter_func inv_lin params xinput
  inv_lin_params shifter_func_params clip_ytnext).
#[local] Abbreviation cond := (cond_func yinit_dtype max_iter).
#[local] Abbreviation run := (while_run func jacfwd_func shifter_func inv_lin params xinput
  inv_lin_params shifter_func_params yinit_dtype max_iter clip_ytnext).
#[local] Abbreviation iter_n := (iterate func jacfwd_func shifter_func inv_lin params xinput
  inv_lin_params shifter_func_params clip_ytnext).
#[local] Abbreviation tolerance := (@tol A _ yinit_dtype).

Lemma iter_func_iiter (s s' : carry A) :
  body s = Ok s' -> c_iiter s' = (c_iiter s + 1)%Z.
Proof.
  unfold iter_func, bind. intro E. res_inv E; inversion E; reflexivity.
Qed.

Lemma iterate_iiter (n : nat) : forall s s' : carry A,
  iter_n n s = Ok s' -> c_iiter s' = (c_iiter s + Z.of_nat n)%Z.
Proof.
  induction n as [|n IH]; intros s s' E; simpl in E.
  - inversion E; subst. lia.
  - unfold bind in E. destruct (body s) as [s1|e] eqn:E1; [|discriminate].
    apply IH in E. apply iter_func_iiter in E1. lia.
Qed.

Lemma cond_iiter (s : carry A) :
  cond s = true -> (c_iiter s < max_iter)%Z.
Proof.
  unfold cond_func. rewrite andb_true_iff, Z.ltb_lt. tauto.
Qed.

(** The fuel of [while_run] does not matter once it covers the remaining
    iteration budget. *)
Lemma while_run_fuel (n : nat) : forall (m : nat) (s : carry A),
  (Z.to_nat (max_iter - c_iiter s) <= n)%nat ->
  (Z.to_nat (max_iter - c_iiter s) <= m)%nat ->
  run n s = run m s.
Proof.
  induction n as [|n IH]; intros m s Hn Hm.
  - destruct m as [|m]; [reflexivity|]. simpl.
    destruct (cond s) eqn:C; [|reflexivity].
    apply cond_iiter in C. lia.
  - destruct m as [|m].
    + simpl. destruct (cond s) eqn:C; [|reflexivity].
      apply cond_iiter in C. lia.
    + simpl. destruct (cond s) eqn:C; [|reflexivity].
      unfold bind. destruct (body s) as [s1|e] eqn:E1; [|reflexivity].
      apply iter_func_iiter in E1.
      apply IH; rewrite E1; lia.
Qed.

(** The error of a run of the body is measured between its output and its
    input estimate. *)
Lemma iter_func_err (s s' : carry A) :
  body s = Ok s' -> jmax (map (map fabs) (seq_sub (c_yt s') (c_yt s))) = Ok (c_err s').
Proof.
  unfold iter_func, bind. intro E. res_inv E; inversion E; subst; simpl; assumption.
Qed.

(** When [while_run] returns, the loop condition is false. *)
Lemma while_run_stops (n : nat) : forall s s' : carry A,
  (Z.to_nat (max_iter - c_iiter s) <= n)%nat ->
  run n s = Ok s' -> cond s' = false.
Proof.
  induction n as [|n IH]; intros s s' Hn E; simpl in E.
  - inversion E; subst. destruct (cond s') eqn:C; [|reflexivity].
    apply cond_iiter in C. lia.
  - destruct (cond s) eqn:C.
    + unfold bind in E. destruct (body s) as [s1|e] eqn:E1; [|discriminate].
      apply iter_func_iiter in E1.
      apply (IH s1); [rewrite E1; lia | exact E].
    + inversion E; subst. exact C.
Qed.

(** If no run of the body along the way brings the error to the tolerance,
    the loop runs the body exactly as many times as the budget allows. *)
Lemma while_run_nonconv (n : nat) : forall s : carry A,
  (forall k s', (1 <= k <= n)%nat -> iter_n k s = Ok s' ->
     fgt (c_err s') tolerance = true) ->
  fgt (c_err s) tolerance = true ->
  (c_iiter s + Z.of_nat n)%Z = max_iter ->
  run n s = iter_n n s.
Proof.
  induction n as [|n IH]; intros s Hnc Herr Hi; [reflexivity|].
  simpl. unfold cond_func. rewrite Herr. simpl.
  assert (Hlt : (c_iiter s <? max_iter)%Z = true) by (apply Z.ltb_lt; lia).
  rewrite Hlt. unfold bind.
  destruct (body s) as [s1|e] eqn:E1; [|reflexivity].
  apply IH.
  - intros k s' Hk E. apply (Hnc (S k)); [lia|]. simpl. rewrite E1. exact E.
  - apply (Hnc 1%nat s1); [lia|]. simpl. rewrite E1. reflexivity.
  - apply iter_func_iiter in E1. lia.
Qed.

Lemma while_loop_traced (init : carry A) :
  traces_ok func jacfwd_func shifter_func inv_lin params xinput inv_lin_params
    shifter_func_params clip_ytnext init = true ->
  while_loop func jacfwd_func shifter_func inv_lin params xinput inv_lin_params
    shifter_func_params yinit_dtype max_iter clip_ytnext init
  = run (Z.to_nat max_iter) init.
Proof.
  unfold traces_ok, while_loop. destruct (body init) as [s'|e]; [|discriminate].
  now destruct (shape_eqb _ _).
Qed.

Lemma while_loop_ok (init : carry A) (s : carry A) :
  while_loop func jacfwd_func shifter_func inv_lin params xinput inv_lin_params
    shifter_func_params yinit_dtype max_iter clip_ytnext init = Ok s ->
  run (Z.to_nat max_iter) init = Ok s.
Proof.
  unfold while_loop. destruct (body init) as [s'|e]; [|discriminate].
  now destruct (shape_eqb _ _).
Qed.

#[local] Abbreviation init := (init_carry p_num yinit_guess).
#[local] Abbreviation loop := (while_loop func jacfwd_func shifter_func inv_lin params
  xinput inv_lin_params shifter_func_params yinit_dtype max_iter clip_ytnext).
#[local] Abbreviation helper := (deer_iteration_helper func jacfwd_func shifter_func
  inv_lin p_num params xinput inv_lin_params shifter_func_params yinit_guess
  yinit_dtype max_iter clip_ytnext).
#[local] Abbreviation deer := (deer_iteration func jacfwd_func shifter_func inv_lin
  p_num params xinput inv_lin_params shifter_func_params yinit_guess yinit_dtype
  max_iter clip_ytnext).
#[local] Abbreviation traced := (traces_ok func jacfwd_func shifter_func inv_lin params
  xinput inv_lin_params shifter_func_params clip_ytnext).

(** C2: the loop body runs only while [err > tol] and [iiter < max_iter].
    When no iteration brings the error to the tolerance (and the initial
    error 1e10 exceeds it), the loop is exactly [max_iter] runs of the body:
    the final counter is [max_iter] and [deer_iteration] returns the last
    estimate; running out of budget raises nothing ([max_iter] in the
    int32 range). *)
Theorem deer_iteration_exhausts_budget :
  fits_int32 max_iter = true ->
  (0 <= max_iter)%Z ->
  traced init = true ->
  fgt (fconst (10000000000 # 1)) tolerance = true ->
  (forall k s, (1 <= k <= Z.to_nat max_iter)%nat -> iter_n k init = Ok s ->
     fgt (c_err s) tolerance = true) ->
  loop init = iter_n (Z.to_nat max_iter) init /\
  (forall s, iter_n (Z.to_nat max_iter) init = Ok s ->
     c_iiter s = max_iter /\
     deer_iteration func jacfwd_func shifter_func inv_lin p_num params xinput
       inv_lin_params shifter_func_params yinit_guess yinit_dtype max_iter clip_ytnext = Ok (c_yt s)).
Proof.
  intros _ H0 Htr Herr Hnc.
  assert (Hloop : loop init = iter_n (Z.to_nat max_iter) init).
  { rewrite (while_loop_traced init Htr).
    apply while_run_nonconv; [exact Hnc | exact Herr | simpl; lia]. }
  split; [exact Hloop|].
  intros s Hs. apply iterate_iiter in Hs as Hi. simpl in Hi.
  split; [lia|].
  unfold deer_iteration, deer_iteration_helper.
  rewrite Hloop, Hs. reflexivity.
Qed.

(** C4: the tolerance is 1e-4 for float32 and 1e-7 for float64, and when
    the loop stops with an error above the tolerance, it stopped because
    the counter reached [max_iter] ([max_iter] in the int32 range). *)
Theorem tolerance_by_dtype :
  tol_of float32 = 1 # 10000 /\ tol_of float64 = 1 # 10000000 /\
  (fits_int32 max_iter = true ->
   forall s, loop init = Ok s -> fgt (c_err s) tolerance = true ->
     (max_iter <= c_iiter s)%Z).
Proof.
  split; [reflexivity|]. split; [reflexivity|].
  intros _ s Hs Hgt. apply while_loop_ok in Hs.
  apply while_run_stops in Hs; [|simpl; lia].
  unfold cond_func in Hs. rewrite Hgt in Hs. simpl in Hs.
  apply Z.ltb_ge in Hs. exact Hs.
Qed.

(** C10: with [max_iter = 0] the body never runs: the helper returns
    [yinit_guess] and the all-zero initial bundle of [p_num] blocks, and
    [deer_iteration] returns [yinit_guess] (once the body traces). *)
Theorem deer_iteration_max_iter_zero :
  max_iter = 0%Z ->
  traced init = true ->
  helper = Ok (yinit_guess,
               repeat (repeat (repeat (repeat fzero (ny_of yinit_guess))
                         (ny_of yinit_guess)) (length yinit_guess)) p_num) /\
  deer = Ok yinit_guess.
Proof.
  intros Hm Htr.
  unfold deer_iteration, deer_iteration_helper.
  rewrite (while_loop_traced init Htr), Hm. split; reflexivity.
Qed.

Lemma shape_eqb_snd (a b : list nat * list (list (list nat))) :
  shape_eqb a b = true -> snd a = snd b.
Proof.
  unfold shape_eqb. rewrite andb_true_iff. intros [_ E].
  destruct (list_eq_dec _ (snd a) (snd b)); [assumption | discriminate].
Qed.

Lemma jacfunc_length (ys : list (list (list A))) (jacs : list (list (list (list A)))) :
  jacfunc jacfwd_func ys xinput params = Ok jacs -> length jacs = length ys.
Proof.
  unfold jacfunc, bind. intro E. res_inv E. inversion E.
  rewrite length_map, length_seq. reflexivity.
Qed.

(** The bundle built by the body has one block per shifted sequence. *)
Lemma iter_func_gts_length (s s' : carry A) (ytparams : list (list (list A))) :
  shifter_func (c_yt s) shifter_func_params = Ok ytparams ->
  body s = Ok s' -> length (c_gts s') = length ytparams.
Proof.
  intros Hsh E. unfold iter_func, bind in E.
  destruct (linearize _ _ _ _ _ _ (c_yt s)) as [lin|e] eqn:L; [|discriminate].
  assert (Hg : length (snd (fst lin)) = length ytparams).
  { unfold linearize, bind in L. rewrite Hsh in L.
    destruct (jacfunc _ _ _ _) as [jacs|e] eqn:J; [|discriminate].
    res_inv L. inversion L; subst; simpl.
    rewrite length_map. now apply jacfunc_length in J. }
  res_inv E; inversion E; subst; exact Hg.
Qed.

(** C9 (as the code does it): [p_num] is checked against nothing; it only
    sizes the initial bundle.  When the number of shifted sequences differs
    from [p_num], the loop never starts: tracing the body either raises the
    body's own error or, if the body succeeds, the carry check raises
    TypeError. *)
Theorem p_num_mismatch_rejected_at_trace (ytparams : list (list (list A))) :
  shifter_func yinit_guess shifter_func_params = Ok ytparams ->
  length ytparams <> p_num ->
  deer_iteration_helper func jacfwd_func shifter_func inv_lin p_num params xinput
    inv_lin_params shifter_func_params yinit_guess yinit_dtype max_iter clip_ytnext
  = Err TypeError \/ (exists e, body init = Err e /\ helper = Err e).
Proof.
  intros Hsh Hlen. unfold deer_iteration_helper, while_loop, bind.
  destruct (body init) as [s'|e] eqn:E.
  - left. destruct (shape_eqb _ _) eqn:Hs; [|reflexivity].
    exfalso. apply shape_eqb_snd in Hs. simpl in Hs.
    apply (f_equal (@length _)) in Hs. rewrite !length_map, repeat_length in Hs.
    rewrite (iter_func_gts_length init s' ytparams Hsh E) in Hs. contradiction.
  - right. exists e. split; reflexivity.
Qed.

(** C6: in every run of the body, with [S_i] the shift set of sample [i]
    (entry [i] of every shifted sequence) and [x_i] its input, block [k] of
    the bundle at sample [i] is minus the [k]-th Jacobian that [jacfwd_func]
    returns at [(S_i, x_i)], and the right-hand side handed to [inv_lin] is,
    at sample [i], [func S_i x_i + sum_k G_ik S_ik] where [G_ik] is that
    bundle block (Python's [sum] and [+=]). *)
Theorem iter_func_bundle_and_rhs (s s' : carry A) :
  body s = Ok s' ->
  exists ytparams rhs yt_next,
    shifter_func (c_yt s) shifter_func_params = Ok ytparams /\
    inv_lin (c_gts s') rhs inv_lin_params = Ok yt_next /\
    length (c_gts s') = length ytparams /\
    forall i x, nth_error xinput i = Some x ->
    exists J f,
      jacfwd_func (map (fun y => nth i y []) ytparams) x params = Ok J /\
      func (map (fun y => nth i y []) ytparams) x params = Ok f /\
      map (fun g => nth i g []) (c_gts s') =
        map (fun k => mneg (nth k J [])) (seq 0 (length ytparams)) /\
      nth i rhs [] =
        vec_iadd f (py_sum_vec (zip_with matvec (map (fun g => nth i g []) (c_gts s'))
                                                (map (fun y => nth i y []) ytparams))).
Proof.
  intro E. unfold iter_func, bind in E.
  destruct (linearize _ _ _ _ _ _ (c_yt s)) as [[[yp gts] rhs]|e] eqn:L; [|discriminate].
  simpl in E.
  destruct (inv_lin gts rhs inv_lin_params) as [yn|e] eqn:I; [|discriminate].
  assert (G : c_gts s' = gts) by (res_inv E; inversion E; reflexivity).
  rewrite G. clear E G.
  unfold linearize, bind in L.
  destruct (shifter_func (c_yt s) shifter_func_params) as [yp'|e] eqn:Hsh; [|discriminate].
  destruct (jacfunc _ _ _ _) as [jacs|e] eqn:J; [|discriminate].
  destruct (func2 _ _ _ _) as [fs|e] eqn:F; [|discriminate].
  inversion L; subst yp' gts rhs; clear L.
  unfold jacfunc, bind in J.
  destruct (vmap_in yp xinput) as [args|e] eqn:V; [|discriminate].
  destruct (mapM _ args) as [outs|e] eqn:M; [|discriminate].
  inversion J; subst jacs; clear J.
  unfold func2, bind in F. rewrite V in F.
  destruct (vmap_in_nth yp xinput args V) as [Vl [Va Vn]].
  destruct (mapM_nth _ args outs M) as [Ml Mn].
  destruct (mapM_nth _ args fs F) as [Fl Fn].
  exists yp, (rhs_iadd fs (py_sum (zip_with einsum_seq
     (map (map mneg) (map (fun k => map (fun o => nth k o []) outs) (seq 0 (length yp)))) yp))), yn.
  split; [reflexivity|]. split; [exact I|].
  split; [rewrite !length_map, length_seq; reflexivity|].
  intros i x Hx.
  assert (Hi : (i < length xinput)%nat) by (apply nth_error_Some; congruence).
  pose proof (Vn i x Hx) as Ha.
  destruct (Mn i _ Ha) as [Jb [HJ HJn]].
  destruct (Fn i _ Ha) as [fb [HF HFn]].
  exists Jb, fb. split; [exact HJ|]. split; [exact HF|].
  assert (Hblk : map (fun g => nth i g [])
      (map (map mneg) (map (fun k => map (fun o => nth k o []) outs) (seq 0 (length yp)))) =
      map (fun k => mneg (nth k Jb [])) (seq 0 (length yp))).
  { rewrite !map_map. apply map_ext. intro k.
    rewrite (nth_map_nil mneg) by reflexivity.
    rewrite (nth_map_nil (fun o => nth k o [])) by (destruct k; reflexivity).
    rewrite (nth_error_nth outs i [] HJn). reflexivity. }
  split; [exact Hblk|].
  destruct (einsum_terms_nth i
      (map (map mneg) (map (fun k => map (fun o => nth k o []) outs) (seq 0 (length yp)))) yp)
    as [T1 T2].
  - intros g Hg. rewrite map_map, in_map_iff in Hg. destruct Hg as [k [Hk _]].
    subst g. rewrite !length_map. lia.
  - intros y Hy. rewrite (Vl y Hy). exact Hi.
  - rewrite (rhs_iadd_nth i fs).
    + rewrite T1, (nth_error_nth fs i [] HFn). reflexivity.
    + lia.
    + exact T2.
Qed.

End DeerFacts.

(** * More facts about [deer_iteration_helper] *)

Section DeerExtra.
Context {A : Type} `{Num A} {X P IP SP : Type}.
Variable func : list (list A) -> X -> P -> res (list A).
Variable jacfwd_func : list (list A) -> X -> P -> res (list (list (list A))).
Variable shifter_func : list (list A) -> SP -> res (list (list (list A))).
Variable inv_lin : list (list (list (list A))) -> list (list A) -> IP -> res (list (list A)).
Variable p_num : nat.
Variable params : P.
Variable xinput : list X.
Variable inv_lin_params : IP.
Variable shifter_func_params : SP.
Variable yinit_guess : list (list A).
Variable yinit_dtype : dtype.
Variable max_iter : Z.
Variable clip_ytnext : bool.

#[local] Abbreviation body := (iter_func func jacfwd_func shifter_func inv_lin params xinput
  inv_lin_params shifter_func_params clip_ytnext).
#[local] Abbreviation run := (while_run func jacfwd_func shifter_func inv_lin params xinput
  inv_lin_params shifter_func_params yinit_dtype max_iter clip_ytnext).
#[local] Abbreviation lin := (linearize func jacfwd_func shifter_func params xinput
  shifter_func_params).

(** A run of the body: linearise at the input estimate, call [inv_lin],
    clip if asked. *)
Lemma iter_func_out (s s' : carry A) :
  body s = Ok s' ->
  exists ytparams rhs yn,
    lin (c_yt s) = Ok (ytparams, c_gts s', rhs) /\
    inv_lin (c_gts s') rhs inv_lin_params = Ok yn /\
    c_yt s' = (if clip_ytnext then map (map clip_entry) yn else yn).
Proof.
  intro E. unfold iter_func, bind in E.
  destruct (lin (c_yt s)) as [[[yp gts] rhs]|e] eqn:L; [|discriminate].
  simpl in E.
  destruct (inv_lin gts rhs inv_lin_params) as [yn|e] eqn:I; [|discriminate].
  destruct (jmax _) as [err|e] eqn:J; [|discriminate].
  inversion E; subst; simpl. exists yp, rhs, yn. auto.
Qed.

(** What [while_run] returns is its input or the output of a run of the
    body. *)
Lemma while_run_output (n : nat) : forall s s' : carry A,
  run n s = Ok s' -> s' = s \/ exists p, body p = Ok s'.
Proof.
  induction n as [|n IH]; intros s s' E; simpl in E.
  - inversion E; auto.
  - destruct (cond_func yinit_dtype max_iter s); [|inversion E; auto].
    unfold bind in E. destruct (body s) as [s1|e] eqn:E1; [|discriminate].
    destruct (IH s1 s' E) as [->|Hp]; [right; exists s; exact E1 | right; exact Hp].
Qed.

Lemma concat_abs_sub_nil (y : list (list A)) : forall z : list (list A),
  concat y = [] -> concat (map (map fabs) (seq_sub z y)) = [].
Proof.
  induction y as [|r y IH]; intros z Hy; [destruct z; reflexivity|].
  simpl in Hy. apply app_eq_nil in Hy as [Hr Hy]. subst r.
  destruct z as [|r' z]; [reflexivity|]. simpl.
  destruct r'; apply IH; exact Hy.
Qed.

#[local] Abbreviation init := (init_carry p_num yinit_guess).

(** A body run on an estimate with no entries raises ValueError in the
    [jnp.max] of the error. *)
Lemma iter_func_empty (s : carry A) :
  concat (c_yt s) = [] ->
  (forall s', body s <> Ok s') /\
  (forall l yn, lin (c_yt s) = Ok l ->
     inv_lin (snd (fst l)) (snd l) inv_lin_params = Ok yn -> body s = Err ValueError).
Proof.
  intro Hy. split.
  - intros s' E. unfold iter_func, bind in E.
    destruct (lin (c_yt s)) as [l|e]; [|discriminate].
    destruct (inv_lin _ _ _) as [yn|e]; [|discriminate].
    unfold jmax in E. rewrite concat_abs_sub_nil in E by exact Hy. discriminate.
  - intros l yn L I. unfold iter_func, bind. rewrite L. simpl. rewrite I.
    unfold jmax. rewrite concat_abs_sub_nil by exact Hy. reflexivity.
Qed.

(** With an initial guess that has no entries (no samples, or [ny = 0]),
    [deer_iteration] never returns: tracing the body raises, and once the
    linearisation and [inv_lin] succeed, the error raised is the ValueError
    of [jnp.max] on a zero-size array. *)
Theorem deer_iteration_empty_guess_raises :
  concat yinit_guess = [] ->
  (forall y, deer_iteration func jacfwd_func shifter_func inv_lin p_num params xinput
     inv_lin_params shifter_func_params yinit_guess yinit_dtype max_iter clip_ytnext <> Ok y) /\
  (forall l yn, lin yinit_guess = Ok l ->
     inv_lin (snd (fst l)) (snd l) inv_lin_params = Ok yn ->
     deer_iteration func jacfwd_func shifter_func inv_lin p_num params xinput
       inv_lin_params shifter_func_params yinit_guess yinit_dtype max_iter clip_ytnext
     = Err ValueError).
Proof.
  intro Hy. destruct (iter_func_empty init Hy) as [H1 H2]. split.
  - intros y E. unfold deer_iteration, deer_iteration_helper, while_loop, bind in E.
    destruct (body init) as [s'|e]; [exact (H1 s' eq_refl)|discriminate].
  - intros l yn L I. unfold deer_iteration, deer_iteration_helper, while_loop, bind.
    rewrite (H2 l yn L I). reflexivity.
Qed.

(** The helper's output comes from the last run of the body. *)
Lemma helper_from_last_run (yt : list (list A))
    (gts : list (list (list (list A)))) :
  (1 <= max_iter)%Z ->
  fgt (fconst (10000000000 # 1)) (@tol A _ yinit_dtype) = true ->
  deer_iteration_helper func jacfwd_func shifter_func inv_lin p_num params xinput
    inv_lin_params shifter_func_params yinit_guess yinit_dtype max_iter clip_ytnext
  = Ok (yt, gts) ->
  exists yprev ytparams rhs yn,
    lin yprev = Ok (ytparams, gts, rhs) /\
    inv_lin gts rhs inv_lin_params = Ok yn /\
    yt = (if clip_ytnext then map (map clip_entry) yn else yn).
Proof.
  intros Hm Herr E. unfold deer_iteration_helper, while_loop, bind in E.
  destruct (body init) as [s0|e] eqn:B0; [|discriminate].
  destruct (shape_eqb _ _); [|discriminate].
  destruct (run (Z.to_nat max_iter) init) as [s|e] eqn:R; [|discriminate].
  inversion E; subst yt gts; clear E.
  destruct (Z.to_nat max_iter) as [|n] eqn:Hn; [lia|].
  simpl in R. unfold cond_func in R. simpl in R. rewrite Herr in R.
  assert (Hlt : (0 <? max_iter)%Z = true) by (apply Z.ltb_lt; lia).
  rewrite Hlt in R. simpl in R. rewrite B0 in R. simpl in R.
  assert (Hp : exists p, body p = Ok s).
  { destruct (while_run_output n s0 s R) as [->|Hp]; [exists init; exact B0 | exact Hp]. }
  destruct Hp as [p Hp].
  destruct (iter_func_out p s Hp) as (yp & rhs & yn & L & I & Y).
  exists (c_yt p), yp, rhs, yn. auto.
Qed.

(** When [1 <= max_iter < 2^31] (and the initial error 1e10 exceeds the
    tolerance), the body runs at least once, and the returned estimate and
    bundle come from the same run: the bundle is the one linearised at the
    estimate that run started from, and the estimate is what [inv_lin]
    returns with that bundle (clipped if asked), not the estimate the
    bundle was computed at. *)
Theorem deer_helper_bundle_at_previous_estimate (yt : list (list A))
    (gts : list (list (list (list A)))) :
  fits_int32 max_iter = true ->
  (1 <= max_iter)%Z ->
  fgt (fconst (10000000000 # 1)) (@tol A _ yinit_dtype) = true ->
  deer_iteration_helper func jacfwd_func shifter_func inv_lin p_num params xinput
    inv_lin_params shifter_func_params yinit_guess yinit_dtype max_iter clip_ytnext
  = Ok (yt, gts) ->
  exists yprev ytparams rhs yn,
    lin yprev = Ok (ytparams, gts, rhs) /\
    inv_lin gts rhs inv_lin_params = Ok yn /\
    yt = (if clip_ytnext then map (map clip_entry) yn else yn).
Proof. intros _. exact (helper_from_last_run yt gts). Qed.

(** If a shifted sequence returned by [shifter_func] for the initial guess
    does not have one sample per entry of [xinput], [deer_iteration]
    raises ValueError: the vmapped Jacobian rejects the mapped axes of
    different sizes while the body is traced. *)
Theorem deer_iteration_sample_count_mismatch (ytparams : list (list (list A))) :
  shifter_func yinit_guess shifter_func_params = Ok ytparams ->
  existsb (fun y => negb (Nat.eqb (length y) (length xinput))) ytparams = true ->
  deer_iteration func jacfwd_func shifter_func inv_lin p_num params xinput
    inv_lin_params shifter_func_params yinit_guess yinit_dtype max_iter clip_ytnext
  = Err ValueError.
Proof.
  intros Hsh Hm.
  assert (V : vmap_in ytparams xinput = Err ValueError).
  { unfold vmap_in.
    destruct (forallb _ ytparams) eqn:F; [|reflexivity].
    exfalso. rewrite forallb_forall in F. apply existsb_exists in Hm as [y [Hy Hn]].
    rewrite (F y Hy) in Hn. discriminate. }
  unfold deer_iteration, deer_iteration_helper, while_loop, iter_func, linearize,
    jacfunc, bind. simpl c_yt. rewrite Hsh, V. reflexivity.
Qed.

End DeerExtra.

(** * The clipping guard, with IEEE special values *)










Section DeerFlt.
Context {X P IP SP : Type}.
Variable func : list (list flt) -> X -> P -> res (list flt).
Variable jacfwd_func : list (list flt) -> X -> P -> res (list (list (list flt))).
Variable shifter_func : list (list flt) -> SP -> res (list (list (list flt))).
Variable inv_lin : list (list (list (list flt))) -> list (list flt) -> IP -> res (list (list flt)).
Variable params : P.
Variable xinput : list X.
Variable inv_lin_params : IP.
Variable shifter_func_params : SP.
Variable yinit_dtype : dtype.
Variable max_iter : Z.

#[local] Abbreviation body clip := (iter_func func jacfwd_func shifter_func inv_lin params
  xinput inv_lin_params shifter_func_params clip).
#[local] Abbreviation lin := (linearize func jacfwd_func shifter_func params xinput
  shifter_func_params).



End DeerFlt.




(** * [solve_idae_inv_lin] over exact rationals *)

Ltac qsimpl := cbn [dot vadd vneg vscale zip_with fold_right map fadd fmul fzero fneg fconst Num_Qc] in *.

Lemma dot_vscale (a : Qc) (x v : list Qc) : dot (vscale a x) v = a * dot x v.
Proof.
  unfold dot, vscale. revert v; induction x as [|b x IH]; intros [|c v]; qsimpl; try ring.
  rewrite IH. ring.
Qed.

Lemma dot_vadd (x y v : list Qc) :
  length x = length y -> dot (vadd x y) v = dot x v + dot y v.
Proof.
  unfold dot, vadd. revert y v; induction x as [|a x IH]; intros [|b y] [|c v] L;
    simpl in L; try discriminate; qsimpl; try ring.
  rewrite IH by lia. ring.
Qed.

Lemma dot_repeat_zero (m : nat) (v : list Qc) : dot (repeat 0 m) v = 0.
Proof.
  unfold dot. revert v; induction m as [|m IH]; intros [|c v]; simpl repeat; qsimpl; try reflexivity.
  rewrite IH. ring.
Qed.

Lemma dot_vneg (x v : list Qc) : dot (vneg x) v = - dot x v.
Proof.
  unfold dot, vneg. revert v; induction x as [|a x IH]; intros [|c v]; qsimpl; try ring.
  rewrite IH. ring.
Qed.

Lemma dot_vadd_r (r u w : list Qc) :
  length u = length w -> dot r (vadd u w) = dot r u + dot r w.
Proof.
  unfold dot, vadd. revert u w; induction r as [|a r IH]; intros [|b u] [|c w] L;
    simpl in L; try discriminate; qsimpl; try ring.
  rewrite IH by lia. ring.
Qed.

Lemma dot_vneg_r (r u : list Qc) : dot r (vneg u) = - dot r u.
Proof.
  unfold dot, vneg. revert u; induction r as [|a r IH]; intros [|b u]; qsimpl; try ring.
  rewrite IH. ring.
Qed.

Lemma length_vadd (x y : list Qc) : length (vadd x y) = Nat.min (length x) (length y).
Proof. apply length_zip_with. Qed.

Lemma length_matvec (M : list (list Qc)) (v : list Qc) : length (matvec M v) = length M.
Proof. apply length_map. Qed.

Lemma matmul_row_length (m : nat) (r : list Qc) (N : list (list Qc)) :
  (forall row, In row N -> length row = m) ->
  length (fold_right vadd (repeat 0 m) (zip_with vscale r N)) = m.
Proof.
  revert N; induction r as [|a r IH]; intros [|row N] HN; simpl; try apply repeat_length.
  rewrite length_vadd. unfold vscale. rewrite length_map, HN by (left; reflexivity).
  rewrite IH by (intros; apply HN; right; assumption). lia.
Qed.

Lemma dot_matmul_row (m : nat) (r : list Qc) (N : list (list Qc)) (v : list Qc) :
  (forall row, In row N -> length row = m) ->
  dot (fold_right vadd (repeat 0 m) (zip_with vscale r N)) v = dot r (matvec N v).
Proof.
  revert N; induction r as [|a r IH]; intros [|row N] HN; simpl zip_with; simpl fold_right.
  - rewrite dot_repeat_zero. reflexivity.
  - rewrite dot_repeat_zero. reflexivity.
  - rewrite dot_repeat_zero. reflexivity.
  - rewrite dot_vadd.
    + rewrite dot_vscale, IH by (intros; apply HN; right; assumption).
      unfold matvec, dot. simpl map. qsimpl. reflexivity.
    + unfold vscale. rewrite length_map, HN by (left; reflexivity).
      rewrite matmul_row_length by (intros; apply HN; right; assumption). reflexivity.
Qed.

Lemma matvec_matmul (M N : list (list Qc)) (m : nat) (v : list Qc) :
  (forall row, In row N -> length row = m) ->
  matvec (matmul M N) v = matvec M (matvec N v).
Proof.
  intro HN. unfold matmul, matvec at 1 2. rewrite map_map. apply map_ext. intro r.
  destruct N as [|row N'].
  - exact (dot_matmul_row 0 r [] v (fun row H => match H with end)).
  - apply (dot_matmul_row (length row) r (row :: N') v).
    intros row' H'. rewrite (HN row' H'), (HN row) by (left; reflexivity). reflexivity.
Qed.

Lemma matvec_mneg (M : list (list Qc)) (v : list Qc) :
  matvec (mneg M) v = vneg (matvec M v).
Proof.
  unfold matvec, mneg, vneg. rewrite !map_map. apply map_ext. intro r. apply dot_vneg.
Qed.

Lemma matvec_vadd (M : list (list Qc)) (u w : list Qc) :
  length u = length w -> matvec M (vadd u w) = vadd (matvec M u) (matvec M w).
Proof.
  intro L. unfold matvec. induction M as [|r M IH]; [reflexivity|].
  simpl. rewrite IH, dot_vadd_r by exact L. reflexivity.
Qed.

Lemma matvec_vneg (M : list (list Qc)) (u : list Qc) :
  matvec M (vneg u) = vneg (matvec M u).
Proof.
  unfold matvec, vneg. rewrite map_map. apply map_ext. intro r. apply dot_vneg_r.
Qed.

Lemma vadd_vneg_cancel (w z : list Qc) :
  length w = length z -> vadd (vadd (vneg w) z) w = z.
Proof.
  unfold vadd, vneg. revert z; induction w as [|a w IH]; intros [|b z] L; simpl in L;
    try discriminate; [reflexivity|].
  qsimpl. rewrite IH by lia. f_equal. ring.
Qed.

Lemma dot_unit_row (v : list Qc) : forall k i,
  dot (map (fun j => if Nat.eqb i j then fconst 1 else fzero) (seq k (length v))) v =
  if Nat.leb k i && Nat.ltb i (k + length v) then nth (i - k) v 0 else 0.
Proof.
  unfold dot. induction v as [|c v IH]; intros k i; simpl seq; qsimpl.
  - destruct (_ && _); [destruct (i - k)%nat|]; reflexivity.
  - rewrite IH. destruct (Nat.eqb i k) eqn:Eik.
    + apply Nat.eqb_eq in Eik. subst i.
      replace (Nat.leb (S k) k) with false by (symmetry; apply Nat.leb_gt; lia).
      simpl length. rewrite Nat.leb_refl.
      replace (Nat.ltb k (k + S (length v))) with true by (symmetry; apply Nat.ltb_lt; lia).
      rewrite Nat.sub_diag. simpl. ring.
    + apply Nat.eqb_neq in Eik.
      destruct (Nat.leb k i) eqn:E1.
      * apply Nat.leb_le in E1.
        replace (Nat.leb (S k) i) with true by (symmetry; apply Nat.leb_le; lia).
        replace (i - k)%nat with (S (i - S k)) by lia.
        replace (Nat.ltb i (S k + length v)) with (Nat.ltb i (k + S (length v)))
          by (f_equal; lia).
        simpl andb. destruct (Nat.ltb i (k + S (length v))); simpl; ring.
      * apply Nat.leb_gt in E1.
        replace (Nat.leb (S k) i) with false by (symmetry; apply Nat.leb_gt; lia).
        simpl. ring.
Qed.

Lemma map_nth_seq_id (v : list Qc) : map (fun i => nth i v 0) (seq 0 (length v)) = v.
Proof.
  induction v as [|c v IH]; [reflexivity|].
  simpl length. rewrite <- cons_seq, <- seq_shift. cbn [map]. rewrite map_map. simpl. f_equal. exact IH.
Qed.

Lemma matvec_eye (v : list Qc) : matvec (eye (length v)) v = v.
Proof.
  unfold matvec, eye. rewrite map_map.
  transitivity (map (fun i => nth i v 0) (seq 0 (length v))); [|apply map_nth_seq_id].
  apply map_ext_in. intros i Hi.
  apply in_seq in Hi. rewrite dot_unit_row.
  replace (Nat.leb 0 i && Nat.ltb i (0 + length v)) with true
    by (symmetry; apply andb_true_iff; split; [apply Nat.leb_le | apply Nat.ltb_lt]; lia).
  rewrite Nat.sub_0_r. reflexivity.
Qed.

Lemma list_eqb_true {T : Type} (eqb : T -> T -> bool) :
  (forall x y, eqb x y = true -> x = y) ->
  forall l1 l2, list_eqb eqb l1 l2 = true -> l1 = l2.
Proof.
  intro E. induction l1 as [|a l1 IH]; intros [|b l2] H; simpl in H; try discriminate; auto.
  apply andb_true_iff in H as [H1 H2]. f_equal; auto.
Qed.

Lemma mat_eqb_true (M N : list (list Qc)) : mat_eqb M N = true -> M = N.
Proof.
  apply list_eqb_true, list_eqb_true, Qc_eq_bool_correct.
Qed.

Lemma matmul_recursive_from_length (mats : list (list (list Qc))) :
  forall vecs y, length (matmul_recursive_from mats vecs y) = Nat.min (length mats) (length vecs).
Proof.
  induction mats as [|m mats IH]; intros [|b vecs] y; simpl; auto.
Qed.

Lemma matmul_recursive_from_nth (mats : list (list (list Qc))) :
  forall vecs y j, (j < length mats)%nat -> (j < length vecs)%nat ->
  nth j (matmul_recursive_from mats vecs y) [] =
    vadd (matvec (nth j mats []) (nth j (y :: matmul_recursive_from mats vecs y) []))
         (nth j vecs []).
Proof.
  induction mats as [|m mats IH]; intros [|b vecs] y j Hm Hv; simpl in Hm, Hv; try lia.
  destruct j as [|j]; [reflexivity|].
  cbn [matmul_recursive_from nth]. apply IH; lia.
Qed.

Lemma sq_shape_spec (ny : nat) (M : list (list Qc)) :
  sq_shape ny M = true -> length M = ny /\ forall r, In r M -> length r = ny.
Proof.
  unfold sq_shape. rewrite andb_true_iff, Nat.eqb_eq, forallb_forall. intros [L R].
  split; [exact L|]. intros r Hr. apply Nat.eqb_eq, R, Hr.
Qed.

Lemma vadd_swap4 (a b c d : list Qc) :
  length a = length c -> length b = length d -> length a = length b ->
  vadd (vadd a b) (vadd c d) = vadd (vadd a c) (vadd b d).
Proof.
  unfold vadd. revert b c d; induction a as [|x a IH]; intros [|y b] [|u c] [|w d] L1 L2 L3;
    simpl in *; try discriminate; try reflexivity.
  qsimpl. f_equal; [ring|]. apply IH; lia.
Qed.

Lemma dot_vscale_r (c : Qc) (r v : list Qc) : dot r (vscale c v) = c * dot r v.
Proof.
  unfold dot, vscale. revert v; induction r as [|a r IH]; intros [|b v]; qsimpl; try ring.
  rewrite IH. ring.
Qed.

Lemma matvec_vscale (c : Qc) (M : list (list Qc)) (v : list Qc) :
  matvec M (vscale c v) = vscale c (matvec M v).
Proof.
  unfold matvec, vscale at 2. rewrite map_map. apply map_ext. intro r. apply dot_vscale_r.
Qed.

Lemma vscale_vadd (c : Qc) (a b : list Qc) :
  vadd (vscale c a) (vscale c b) = vscale c (vadd a b).
Proof.
  unfold vadd, vscale. revert b; induction a as [|x a IH]; intros [|y b]; qsimpl; try reflexivity.
  f_equal; [ring | apply IH].
Qed.

Lemma in_zip_with {T U V : Type} (f : T -> U -> V) (l1 : list T) : forall l2 v,
  In v (zip_with f l1 l2) -> exists a b, In a l1 /\ In b l2 /\ v = f a b.
Proof.
  induction l1 as [|a l1 IH]; intros [|b l2] v Hv; simpl in Hv; try contradiction.
  destruct Hv as [<-|Hv]; [exists a, b; simpl; auto|].
  destruct (IH l2 v Hv) as (a' & b' & Ha & Hb & ->). exists a', b'. simpl; auto.
Qed.

Lemma matmul_recursive_from_add (ny : nat) (mats : list (list (list Qc))) :
  (forall m, In m mats -> length m = ny) ->
  forall vecs1 vecs2 y1 y2,
  length vecs1 = length vecs2 ->
  (forall b, In b vecs1 -> length b = ny) -> (forall b, In b vecs2 -> length b = ny) ->
  length y1 = ny -> length y2 = ny ->
  matmul_recursive_from mats (seq_add vecs1 vecs2) (vadd y1 y2) =
    seq_add (matmul_recursive_from mats vecs1 y1) (matmul_recursive_from mats vecs2 y2).
Proof.
  intro Hm. induction mats as [|m mats IH]; intros vecs1 vecs2 y1 y2 L H1 H2 Ly1 Ly2;
    [destruct vecs1, vecs2; reflexivity|].
  destruct vecs1 as [|b1 vecs1], vecs2 as [|b2 vecs2]; simpl in L; try discriminate;
    [reflexivity|].
  assert (Lm : length m = ny) by (apply Hm; left; reflexivity).
  assert (Lb1 : length b1 = ny) by (apply H1; left; reflexivity).
  assert (Lb2 : length b2 = ny) by (apply H2; left; reflexivity).
  unfold seq_add. cbn [zip_with matmul_recursive_from]. fold (seq_add vecs1 vecs2).
  assert (Hy : vadd (matvec m (vadd y1 y2)) (vadd b1 b2) =
               vadd (vadd (matvec m y1) b1) (vadd (matvec m y2) b2)).
  { rewrite matvec_vadd by lia.
    apply vadd_swap4; rewrite ?length_matvec; lia. }
  rewrite Hy. f_equal.
  fold (seq_add (matmul_recursive_from mats vecs1 (vadd (matvec m y1) b1))
                (matmul_recursive_from mats vecs2 (vadd (matvec m y2) b2))).
  apply IH.
  - intros m' Hm'. apply Hm. right. exact Hm'.
  - lia.
  - intros b Hb. apply H1. right. exact Hb.
  - intros b Hb. apply H2. right. exact Hb.
  - rewrite length_vadd, length_matvec. lia.
  - rewrite length_vadd, length_matvec. lia.
Qed.

Lemma matmul_recursive_from_scale (c : Qc) (mats : list (list (list Qc))) :
  forall vecs y,
  matmul_recursive_from mats (map (vscale c) vecs) (vscale c y) =
    map (vscale c) (matmul_recursive_from mats vecs y).
Proof.
  induction mats as [|m mats IH]; intros [|b vecs] y; try reflexivity.
  cbn [map matmul_recursive_from].
  rewrite matvec_vscale, vscale_vadd. f_equal. apply IH.
Qed.

Lemma zip_with_matvec_add (ny : nat) (Ms : list (list (list Qc))) : forall a b,
  length a = length b ->
  (forall r, In r a -> length r = ny) -> (forall r, In r b -> length r = ny) ->
  zip_with matvec Ms (seq_add a b) = seq_add (zip_with matvec Ms a) (zip_with matvec Ms b).
Proof.
  induction Ms as [|M Ms IH]; intros a b L Ha Hb; [reflexivity|].
  destruct a as [|ra a], b as [|rb b]; simpl in L; try discriminate; [reflexivity|].
  unfold seq_add. cbn [zip_with]. fold (seq_add a b).
  rewrite matvec_vadd.
  - f_equal. apply IH; [lia | intros r Hr; apply Ha; right; exact Hr
                            | intros r Hr; apply Hb; right; exact Hr].
  - rewrite (Ha ra), (Hb rb); simpl; auto.
Qed.

Lemma zip_with_matvec_scale (c : Qc) (Ms : list (list (list Qc))) : forall a,
  zip_with matvec Ms (map (vscale c) a) = map (vscale c) (zip_with matvec Ms a).
Proof.
  induction Ms as [|M Ms IH]; intros [|r a]; try reflexivity.
  cbn [zip_with map]. rewrite matvec_vscale. f_equal. apply IH.
Qed.

Lemma tl_seq_add (a b : list (list Qc)) : tl (seq_add a b) = seq_add (tl a) (tl b).
Proof. destruct a as [|x a], b as [|y b]; try reflexivity. destruct a; reflexivity. Qed.

Lemma in_tl {T : Type} (x : T) (l : list T) : In x (tl l) -> In x l.
Proof. destruct l; simpl; auto. Qed.

Section IdaeFacts.
Variable linalg_inv : list (list Qc) -> list (list Qc).

(** C7: given matrices [M0_i], [M1_i] and vectors [z_i] of size [ny] for
    i = 1..n, and [M0_i] invertible with [linalg_inv] its inverse
    ([M0_i . linalg_inv M0_i = I]), [solve_idae_inv_lin] returns n+1 samples,
    [y0] first, each next one being [A_i y_{i-1} + b_i] with
    [A_i = -(M0_i^-1 M1_i)] and [b_i = M0_i^-1 z_i], so that
    [M0_i y_i + M1_i y_{i-1} = z_i] (here [i = j+1]).  The sample 0 of the
    matrices and of [z] is not read. *)
Theorem solve_idae_inv_lin_solves (M0 M1 : list (list (list Qc))) (z : list (list Qc))
    (y0 : list Qc) (n ny : nat) :
  length M0 = S n -> length M1 = S n -> length z = S n ->
  forallb (fun i => sq_shape ny (nth i M0 []) && sq_shape ny (nth i M1 []) &&
                    sq_shape ny (linalg_inv (nth i M0 [])) &&
                    Nat.eqb (length (nth i z [])) ny) (seq 1 n) = true ->
  forallb (fun i => mat_eqb (matmul (nth i M0 []) (linalg_inv (nth i M0 []))) (eye ny))
    (seq 1 n) = true ->
  exists r,
    solve_idae_inv_lin linalg_inv [M0; M1] z [y0] = Ok r /\
    length r = S n /\
    nth 0 r [] = y0 /\
    forall j, (j < n)%nat ->
      nth (S j) r [] =
        vadd (matvec (mneg (matmul (linalg_inv (nth (S j) M0 [])) (nth (S j) M1 [])))
                     (nth j r []))
             (matvec (linalg_inv (nth (S j) M0 [])) (nth (S j) z [])) /\
      vadd (matvec (nth (S j) M0 []) (nth (S j) r []))
           (matvec (nth (S j) M1 []) (nth j r [])) = nth (S j) z [].
Proof.
  intros L0 L1 Lz Hdim Hinv.
  destruct M0 as [|m00 M0s]; [discriminate|].
  destruct M1 as [|m10 M1s]; [discriminate|].
  destruct z as [|z0 zs]; [discriminate|].
  simpl in L0, L1, Lz. injection L0 as L0. injection L1 as L1. injection Lz as Lz.
  set (mats := map mneg (zip_with matmul (map linalg_inv M0s) M1s)).
  set (vecs := zip_with matvec (map linalg_inv M0s) zs).
  assert (Lm : length mats = n).
  { unfold mats. rewrite length_map, length_zip_with, length_map. lia. }
  assert (Lv : length vecs = n).
  { unfold vecs. rewrite length_zip_with, length_map. lia. }
  exists (matmul_recursive mats vecs y0).
  split; [reflexivity|]. split.
  { simpl. rewrite matmul_recursive_from_length. lia. }
  split; [reflexivity|].
  intros j Hj. cbn [nth].
  assert (Hmat : nth j mats [] = mneg (matmul (linalg_inv (nth j M0s [])) (nth j M1s []))).
  { unfold mats. rewrite (nth_map_nil mneg) by reflexivity.
    rewrite (nth_zip_with matmul _ _ j (linalg_inv []) [] []) by (rewrite ?length_map; lia).
    rewrite map_nth. reflexivity. }
  assert (Hvec : nth j vecs [] = matvec (linalg_inv (nth j M0s [])) (nth j zs [])).
  { unfold vecs.
    rewrite (nth_zip_with matvec _ _ j (linalg_inv []) [] []) by (rewrite ?length_map; lia).
    rewrite map_nth. reflexivity. }
  assert (Hy : nth j (matmul_recursive_from mats vecs y0) [] =
      vadd (matvec (mneg (matmul (linalg_inv (nth j M0s [])) (nth j M1s [])))
                   (nth j (matmul_recursive mats vecs y0) []))
           (matvec (linalg_inv (nth j M0s [])) (nth j zs []))).
  { rewrite matmul_recursive_from_nth by lia. rewrite Hmat, Hvec. reflexivity. }
  change (nth (S j) (matmul_recursive mats vecs y0) [])
    with (nth j (matmul_recursive_from mats vecs y0) []).
  split; [exact Hy|].
  rewrite Hy.
  assert (Hin : In (S j) (seq 1 n)) by (apply in_seq; lia).
  rewrite forallb_forall in Hdim, Hinv.
  pose proof (Hdim (S j) Hin) as D. pose proof (Hinv (S j) Hin) as I.
  cbn [nth] in D, I. apply mat_eqb_true in I.
  rewrite !andb_true_iff in D. destruct D as [[[D0 D1] Dinv] Dz].
  apply sq_shape_spec in D1 as [LM1 RM1].
  apply sq_shape_spec in Dinv as [LMi RMi].
  apply Nat.eqb_eq in Dz.
  set (Mi := linalg_inv (nth j M0s [])) in *.
  set (w := matvec (nth j M1s []) (nth j (matmul_recursive mats vecs y0) [])).
  assert (Lw : length w = ny) by (unfold w; rewrite length_matvec; exact LM1).
  rewrite matvec_mneg, (matvec_matmul Mi (nth j M1s []) ny) by exact RM1. fold w.
  rewrite matvec_vadd by (unfold vneg; rewrite length_map, !length_matvec; reflexivity).
  rewrite matvec_vneg.
  rewrite <- !(matvec_matmul (nth j M0s []) Mi ny) by exact RMi.
  rewrite I, <- Lw, matvec_eye, Lw, <- Dz, matvec_eye.
  apply vadd_vneg_cancel. lia.
Qed.

(** [solve_idae_inv_lin] is linear in [(z, y0)] for fixed Jacobians: the
    result for [z1 + z2] and [y01 + y02] is the sum of the results, and the
    result for [c z] and [c y0] is [c] times the result (for [z] rows and
    [y0] of size [ny], with [linalg_inv] giving [ny] rows). *)
Theorem solve_idae_inv_lin_linear (M0 M1 : list (list (list Qc)))
    (z1 z2 : list (list Qc)) (y01 y02 : list Qc) (c : Qc) (ny : nat) :
  length z1 = length z2 ->
  (forall r, In r z1 -> length r = ny) -> (forall r, In r z2 -> length r = ny) ->
  length y01 = ny -> length y02 = ny ->
  (forall M, In M (tl M0) -> length (linalg_inv M) = ny) ->
  exists r1 r2,
    solve_idae_inv_lin linalg_inv [M0; M1] z1 [y01] = Ok r1 /\
    solve_idae_inv_lin linalg_inv [M0; M1] z2 [y02] = Ok r2 /\
    solve_idae_inv_lin linalg_inv [M0; M1] (seq_add z1 z2) [vadd y01 y02] = Ok (seq_add r1 r2) /\
    solve_idae_inv_lin linalg_inv [M0; M1] (map (vscale c) z1) [vscale c y01] =
      Ok (map (vscale c) r1).
Proof.
  intros L H1 H2 Ly1 Ly2 Hinv.
  unfold solve_idae_inv_lin, matmul_recursive.
  eexists; eexists. split; [reflexivity|]. split; [reflexivity|]. split.
  - f_equal. unfold seq_add at 2. cbn [zip_with]. fold (seq_add (
      matmul_recursive_from (map mneg (zip_with matmul (map linalg_inv (tl M0)) (tl M1)))
        (zip_with matvec (map linalg_inv (tl M0)) (tl z1)) y01)
      (matmul_recursive_from (map mneg (zip_with matmul (map linalg_inv (tl M0)) (tl M1)))
        (zip_with matvec (map linalg_inv (tl M0)) (tl z2)) y02)).
    f_equal.
    rewrite tl_seq_add, (zip_with_matvec_add ny).
    + apply matmul_recursive_from_add with (ny := ny).
      * intros m Hm. apply in_map_iff in Hm as [m' [<- Hm']].
        apply in_zip_with in Hm' as (a & b & Ha & _ & ->).
        apply in_map_iff in Ha as [M [<- HM]].
        unfold mneg, matmul. rewrite !length_map. apply Hinv, HM.
      * rewrite !length_zip_with, !length_tl, L. reflexivity.
      * intros b Hb. apply in_zip_with in Hb as (M & r & HM & _ & ->).
        apply in_map_iff in HM as [M' [<- HM']]. rewrite length_matvec. apply Hinv, HM'.
      * intros b Hb. apply in_zip_with in Hb as (M & r & HM & _ & ->).
        apply in_map_iff in HM as [M' [<- HM']]. rewrite length_matvec. apply Hinv, HM'.
      * exact Ly1.
      * exact Ly2.
    + rewrite !length_tl, L. reflexivity.
    + intros r Hr. apply H1, in_tl, Hr.
    + intros r Hr. apply H2, in_tl, Hr.
  - f_equal. cbn [map]. f_equal.
    assert (Ht : tl (map (vscale c) z1) = map (vscale c) (tl z1)) by (destruct z1; reflexivity).
    rewrite Ht, zip_with_matvec_scale. apply matmul_recursive_from_scale.
Qed.

End IdaeFacts.

(** * The local functions of [DEER.compute] *)

Lemma linfunc_spec {A LP : Type} (y : list (list A)) (lp : LP) :
  exists ym1, linfunc y lp = [y; ym1] /\ length ym1 = length y /\
    forall i, (i < length y)%nat -> nth i ym1 [] = nth (i - 1) y [].
Proof.
  exists (firstn 1 y ++ firstn (length y - 1) y). split; [reflexivity|].
  destruct y as [|a y]; [split; [reflexivity | simpl; lia]|].
  split.
  - simpl. rewrite length_firstn. simpl. lia.
  - intros [|k] Hk; [reflexivity|]. simpl.
    replace (length y - 0)%nat with (length y) by lia.
    rewrite nth_firstn. simpl in Hk.
    destruct (Nat.ltb_spec k (length y)) as [_|]; [|lia].
    replace (k - 0)%nat with k by lia. reflexivity.
Qed.

Lemma compute_dt_spec {A : Type} `{Num A} (tpts : list A) :
  ((length tpts <= 1)%nat -> compute_dt tpts = []) /\
  ((2 <= length tpts)%nat ->
     length (compute_dt tpts) = length tpts /\
     forall i, (i < length tpts)%nat ->
       nth i (compute_dt tpts) fzero =
         fsub (nth (Nat.max i 1) tpts fzero) (nth (Nat.max i 1 - 1) tpts fzero)).
Proof.
  split.
  - intro L. destruct tpts as [|a [|b t]]; simpl in L; try lia; reflexivity.
  - intro L. destruct tpts as [|t0 [|t1 t]]; simpl in L; try lia.
    unfold compute_dt.
    set (dp := vsub (skipn 1 (t0 :: t1 :: t)) (firstn (length (t0 :: t1 :: t) - 1) (t0 :: t1 :: t))).
    assert (Ld : length dp = S (length t)).
    { unfold dp, vsub. rewrite length_zip_with, length_skipn, length_firstn. simpl. lia. }
    assert (Nd : forall k, (k < S (length t))%nat ->
              nth k dp fzero = fsub (nth (S k) (t0 :: t1 :: t) fzero) (nth k (t0 :: t1 :: t) fzero)).
    { intros k Hk. unfold dp, vsub.
      rewrite (nth_zip_with _ _ _ _ fzero fzero).
      - rewrite nth_skipn, nth_firstn. simpl length.
        destruct (Nat.ltb_spec k (S (S (length t)) - 1)); [reflexivity | lia].
      - rewrite length_skipn. simpl. lia.
      - rewrite length_firstn. simpl. lia. }
    destruct dp as [|d0 ds] eqn:Ed; [simpl in Ld; discriminate|].
    split; [simpl in Ld |- *; lia|].
    intros [|k] Hk.
    + specialize (Nd 0%nat ltac:(lia)). simpl in Nd |- *. exact Nd.
    + simpl firstn. simpl app. cbn [nth].
      replace (Nat.max (S k) 1) with (S k) by lia.
      replace (S k - 1)%nat with k by lia.
      simpl in Hk. specialize (Nd k ltac:(lia)). simpl in Nd |- *. exact Nd.
Qed.

(** [linfunc] of [DEER.compute] returns [[y, ym1]] where [ym1] has as many
    samples as [y], [ym1[0] = y[0]] and [ym1[i] = y[i-1]] for [i >= 1]
    (an empty [y] gives an empty [ym1]). *)
Theorem linfunc_shifts_by_one {A LP : Type} (y : list (list A)) (lp : LP) :
  exists ym1, linfunc y lp = [y; ym1] /\ length ym1 = length y /\
    forall i, (i < length y)%nat -> nth i ym1 [] = nth (i - 1) y [].
Proof. exact (linfunc_spec y lp). Qed.

(** The step sizes of [DEER.compute]: with at least two time points, [dt]
    has one entry per time point, [dt[i] = t[i] - t[i-1]] for [i >= 1] and
    [dt[0] = dt[1] = t[1] - t[0]]; with zero or one time point, [dt] is
    empty. *)
Theorem compute_dt_backward_differences {A : Type} `{Num A} (tpts : list A) :
  ((length tpts <= 1)%nat -> compute_dt tpts = []) /\
  ((2 <= length tpts)%nat ->
     length (compute_dt tpts) = length tpts /\
     forall i, (i < length tpts)%nat ->
       nth i (compute_dt tpts) fzero =
         fsub (nth (Nat.max i 1) tpts fzero) (nth (Nat.max i 1 - 1) tpts fzero)).
Proof. exact (compute_dt_spec tpts). Qed.

(** The residual that [DEER.compute] hands to the DEER iteration, at sample
    [i] of an estimate [y] (the shift set of [linfunc], the step [dt[i]],
    and the input [x_i]): for [i >= 1] it is [func] at the backward
    difference [(y[i] - y[i-1]) / (t[i] - t[i-1])], [y[i]], [x_i]; at sample
    0 the derivative passed to [func] is zero. *)
Theorem compute_func2_backward_euler {X P LP : Type}
    (func : list Qc -> list Qc -> X -> P -> res (list Qc))
    (tpts : list Qc) (y : list (list Qc)) (lp : LP) (params : P) :
  length y = length tpts -> (2 <= length tpts)%nat ->
  (forall i, (0 < i < length tpts)%nat -> nth i tpts 0 <> nth (i - 1) tpts 0) ->
  (forall xi, compute_func2 func (map (fun s => nth 0 s []) (linfunc y lp))
                (nth 0 (compute_dt tpts) 0, xi) params =
              func (map (fun _ => 0) (nth 0 y [])) (nth 0 y []) xi params) /\
  (forall i xi, (0 < i < length tpts)%nat ->
     compute_func2 func (map (fun s => nth i s []) (linfunc y lp))
       (nth i (compute_dt tpts) 0, xi) params =
     func (map (fun a => a / (nth i tpts 0 - nth (i - 1) tpts 0)) (vsub (nth i y []) (nth (i - 1) y [])))
       (nth i y []) xi params).
Proof.
  intros Ly Lt _.
  destruct (linfunc_spec y lp) as [ym1 [E [L N]]]. rewrite E.
  destruct (compute_dt_spec tpts) as [_ D]. destruct (D Lt) as [_ Dn].
  split.
  - intro xi. unfold compute_func2. cbn [map fst snd].
    rewrite (N 0%nat) by lia. simpl (0 - 1)%nat. f_equal.
    generalize (nth 0 (compute_dt tpts) 0) as d. intro d.
    unfold vsub. induction (nth 0 y []) as [|a r IH]; [reflexivity|].
    cbn [zip_with map]. rewrite IH. f_equal.
    cbn [fsub Num_Qc]. unfold Qcdiv. ring.
  - intros i xi Hi. unfold compute_func2. cbn [map fst snd].
    rewrite (N i) by lia. pose proof (Dn i ltac:(lia)) as Di. cbn [fzero fsub Num_Qc] in Di.
    rewrite Di. replace (Nat.max i 1) with i by lia. reflexivity.
Qed.

(** * The loop over exact rationals *)

Lemma vsub_self (r : list Qc) : map fabs (vsub r r) = map (fun _ => 0) r.
Proof.
  unfold vsub. induction r as [|a r IH]; [reflexivity|].
  cbn [zip_with map]. rewrite IH. f_equal.
  replace (fsub a a) with 0 by (cbn [fsub Num_Qc]; ring). vm_compute. reflexivity.
Qed.

Lemma fold_max_zeros (l : list Qc) :
  (forall a, In a l -> a = 0) -> fold_left fmaximum l 0 = 0.
Proof.
  induction l as [|a l IH]; intro Z0; [reflexivity|].
  simpl. rewrite (Z0 a) by (left; reflexivity).
  replace (@fmaximum Qc Num_Qc 0 0) with (0 : Qc) by (vm_compute; reflexivity).
  apply IH. intros b Hb. apply Z0. right. exact Hb.
Qed.

Lemma jmax_self_zero (y : list (list Qc)) (e : Qc) :
  jmax (map (map fabs) (seq_sub y y)) = Ok e -> e = 0.
Proof.
  assert (Z0 : forall a, In a (concat (map (map fabs) (seq_sub y y))) -> a = 0).
  { intros a Ha. apply in_concat in Ha as [r [Hr Ha]].
    apply in_map_iff in Hr as [r' [Hr' Hin]]. subst r.
    unfold seq_sub in Hin. induction y as [|u y IH]; [destruct Hin|].
    destruct Hin as [Hu|Hin]; [|exact (IH Hin)].
    subst r'. rewrite vsub_self in Ha. apply in_map_iff in Ha as [b [Hb _]].
    symmetry. exact Hb. }
  unfold jmax. destruct (concat _) as [|a l] eqn:C; [discriminate|].
  intro E. inversion E; subst. rewrite (Z0 a) by (left; reflexivity).
  apply fold_max_zeros. intros b Hb. apply Z0. right. exact Hb.
Qed.

Lemma tol_pos (dt : dtype) : fgt 0 (@tol Qc _ dt) = false.
Proof. unfold tol, tol_of. destruct (dtype_eqb dt float64); vm_compute; reflexivity. Qed.

Lemma tol_below_init_err (dt : dtype) :
  fgt (fconst (10000000000 # 1)) (@tol Qc _ dt) = true.
Proof. unfold tol, tol_of. destruct (dtype_eqb dt float64); vm_compute; reflexivity. Qed.

Section DeerQc.
Context {X P IP SP : Type}.
Variable func : list (list Qc) -> X -> P -> res (list Qc).
Variable jacfwd_func : list (list Qc) -> X -> P -> res (list (list (list Qc))).
Variable shifter_func : list (list Qc) -> SP -> res (list (list (list Qc))).
Variable inv_lin : list (list (list (list Qc))) -> list (list Qc) -> IP -> res (list (list Qc)).
Variable p_num : nat.
Variable params : P.
Variable xinput : list X.
Variable inv_lin_params : IP.
Variable shifter_func_params : SP.
Variable yinit_guess : list (list Qc).
Variable yinit_dtype : dtype.
Variable max_iter : Z.
Variable clip_ytnext : bool.

#[local] Abbreviation body := (iter_func func jacfwd_func shifter_func inv_lin params xinput
  inv_lin_params shifter_func_params clip_ytnext).
#[local] Abbreviation loop := (while_loop func jacfwd_func shifter_func inv_lin params
  xinput inv_lin_params shifter_func_params yinit_dtype max_iter clip_ytnext).
#[local] Abbreviation init := (init_carry p_num yinit_guess).

(** C3 (as the code does it): when every run of the body returns the same
    estimate [ystar] whatever its input estimate (an affine [func] and an
    [inv_lin] that solves the assembled system exactly), the first run
    already gives [ystar], but its error is measured against [yinit_guess].
    The loop runs the body at most twice: after one run it stops only if
    that error is within the tolerance (or [max_iter = 1]); a second run
    returns [ystar] again with error 0 ([max_iter] in the int32 range). *)
Theorem exact_solution_stops_by_second_iteration (ystar : list (list Qc)) :
  fits_int32 max_iter = true ->
  (forall s s', body s = Ok s' -> c_yt s' = ystar) ->
  forall s, loop init = Ok s ->
  (c_iiter s <= 2)%Z /\
  ((0 < max_iter)%Z -> c_yt s = ystar) /\
  (c_iiter s = 1%Z -> (1 < max_iter)%Z -> fgt (c_err s) (@tol Qc _ yinit_dtype) = false) /\
  (c_iiter s = 2%Z -> c_err s = 0).
Proof.
  intros _ Hex s E.
  apply (while_loop_ok func jacfwd_func shifter_func inv_lin params xinput inv_lin_params
           shifter_func_params yinit_dtype max_iter clip_ytnext) in E.
  destruct (Z.to_nat max_iter) as [|f] eqn:F.
  { simpl in E. inversion E; subst. simpl.
    split; [lia|]. split; [|split; intro; discriminate].
    intro Hp. lia. }
  assert (Hm : (0 < max_iter)%Z).
  { lia. }
  assert (Hm' : Z.of_nat (S f) = max_iter) by lia.
  simpl in E. unfold cond_func in E. simpl c_err in E. simpl c_iiter in E.
  rewrite tol_below_init_err in E.
  replace (0 <? max_iter)%Z with true in E by (symmetry; apply Z.ltb_lt; exact Hm).
  simpl in E. unfold bind in E.
  destruct (body init) as [s1|e] eqn:B1; [|discriminate].
  pose proof (Hex _ _ B1) as Y1.
  pose proof (iter_func_iiter _ _ _ _ _ _ _ _ _ _ _ B1) as I1. simpl in I1.
  destruct f as [|f].
  { simpl in E. inversion E; subst s.
    split; [lia|]. split; [intros _; exact Y1|]. split; [intros _ H; lia|]. intro H. lia. }
  simpl in E. destruct (cond_func yinit_dtype max_iter s1) eqn:C1.
  - destruct (body s1) as [s2|e] eqn:B2; [|discriminate].
    pose proof (Hex _ _ B2) as Y2.
    pose proof (iter_func_iiter _ _ _ _ _ _ _ _ _ _ _ B2) as I2.
    pose proof (iter_func_err _ _ _ _ _ _ _ _ _ _ _ B2) as R2.
    rewrite Y1, Y2 in R2. apply jmax_self_zero in R2.
    assert (Hs : s = s2).
    { destruct f as [|f]; simpl in E; [inversion E; reflexivity|].
      unfold cond_func in E. rewrite R2, tol_pos in E. simpl in E.
      inversion E; reflexivity. }
    subst s. split; [lia|]. split; [intros _; exact Y2|]. split; [intros H; lia|].
    intros _. exact R2.
  - inversion E; subst s. split; [lia|]. split; [intros _; exact Y1|].
    split; [|intro H; lia].
    intros _ Hlt. unfold cond_func in C1. apply andb_false_iff in C1 as [C1|C1]; [exact C1|].
    apply Z.ltb_ge in C1. lia.
Qed.

Lemma while_run_iiter_mono (n : nat) : forall s s' : carry Qc,
  while_run func jacfwd_func shifter_func inv_lin params xinput inv_lin_params
    shifter_func_params yinit_dtype max_iter clip_ytnext n s = Ok s' ->
  (c_iiter s <= c_iiter s')%Z.
Proof.
  induction n as [|n IH]; intros s s' E; simpl in E.
  - inversion E; subst; lia.
  - destruct (cond_func yinit_dtype max_iter s); [|inversion E; subst; lia].
    unfold bind in E. destruct (body s) as [s1|e] eqn:B; [|discriminate].
    apply IH in E. apply iter_func_iiter in B. lia.
Qed.

(** C8 (as the code does it): take [yinit_guess] to be the output [ys] of a
    converged run, and let [s1] be the first run of the body from it.  The
    re-run stops after exactly this one run if and only if the error of
    [s1], [max |Phi ys - ys|], is within the tolerance; convergence of the
    first run bounds only [|ys - y_prev|], not this error.  When [ys] is an
    exact fixed point of the body ([Phi ys = ys]) the error is 0 and the
    re-run stops after one run ([max_iter] in the int32 range). *)
Theorem rerun_stops_after_one_iff (s1 : carry Qc) :
  fits_int32 max_iter = true ->
  (1 < max_iter)%Z ->
  traces_ok func jacfwd_func shifter_func inv_lin params xinput inv_lin_params
    shifter_func_params clip_ytnext init = true ->
  body init = Ok s1 ->
  c_iiter s1 = 1%Z /\
  (loop init = Ok s1 <-> fgt (c_err s1) (@tol Qc _ yinit_dtype) = false) /\
  (c_yt s1 = yinit_guess -> c_err s1 = 0 /\ loop init = Ok s1).
Proof.
  intros _ Hmi Htr B1.
  pose proof (iter_func_iiter _ _ _ _ _ _ _ _ _ _ _ B1) as I1. simpl in I1.
  rewrite (while_loop_traced func jacfwd_func shifter_func inv_lin params xinput
             inv_lin_params shifter_func_params yinit_dtype max_iter clip_ytnext init Htr).
  destruct (Z.to_nat max_iter) as [|[|f]] eqn:F; try lia.
  assert (Iff : while_run func jacfwd_func shifter_func inv_lin params xinput inv_lin_params
            shifter_func_params yinit_dtype max_iter clip_ytnext (S (S f)) init = Ok s1 <->
          fgt (c_err s1) (@tol Qc _ yinit_dtype) = false).
  { cbn [while_run]. unfold cond_func at 1. simpl c_err. simpl c_iiter.
    rewrite tol_below_init_err.
    replace (0 <? max_iter)%Z with true by (symmetry; apply Z.ltb_lt; lia).
    simpl andb. cbn iota. unfold bind at 1. rewrite B1.
    unfold cond_func. rewrite I1.
    replace (1 <? max_iter)%Z with true by (symmetry; apply Z.ltb_lt; lia).
    rewrite andb_true_r.
    destruct (fgt (c_err s1) (@tol Qc _ yinit_dtype)).
    - split; [|discriminate]. intro E. unfold bind in E.
      destruct (body s1) as [s2|e] eqn:B2; [|discriminate].
      apply while_run_iiter_mono in E. apply iter_func_iiter in B2. lia.
    - split; reflexivity. }
  split; [exact I1|]. split; [exact Iff|].
  intro Y. pose proof (iter_func_err _ _ _ _ _ _ _ _ _ _ _ B1) as R1.
  rewrite Y in R1. simpl c_yt in R1. apply jmax_self_zero in R1.
  split; [exact R1|]. apply Iff. rewrite R1. apply tol_pos.
Qed.

End DeerQc.

(** * Counterexamples, on the instances of [Inst] *)

Import Inst.

(** C3: for an affine [func] and an [inv_lin] that solves the assembled
    system exactly, the first iteration reaches the solution 2 but its
    error is measured against the guess 0, so the loop stops only after the
    second iteration, whose error is 0. *)
Lemma affine_stops_after_two_iterations :
  match iter_func func_aff jac_aff shifter_id inv_lin_1 tt [1%Qc] tt tt false
          (init_carry 1 [[0%Qc]]) with
  | Ok s1 => map (map this) (c_yt s1) = [[2%Q]] /\ this (c_err s1) = 2%Q
  | Err _ => False
  end /\
  match while_loop func_aff jac_aff shifter_id inv_lin_1 tt [1%Qc] tt tt float64 100 false
          (init_carry 1 [[0%Qc]]) with
  | Ok s => c_iiter s = 2%Z /\ this (c_err s) = 0%Q
  | Err _ => False
  end.
Proof. vm_compute. split; split; reflexivity. Qed.


(** C8: Newton's method on a quadratic whose derivative nearly vanishes at
    the first iterate: from 0 the loop converges in one iteration (error
    1e-8 <= 1e-7) to [h = 1e-8]; re-run from [h], the first error is about
    5e7 and the loop goes on. *)
Lemma converged_output_not_stable_on_rerun :
  match while_loop func_nq jac_nq shifter_id inv_lin_1 tt [tt] tt tt float64 100 false
          (init_carry 1 [[0%Qc]]) with
  | Ok s => c_iiter s = 1%Z /\ fgt (c_err s) (tol float64) = false
  | Err _ => False
  end /\
  match deer_iteration func_nq jac_nq shifter_id inv_lin_1 1 tt [tt] tt tt [[0%Qc]]
          float64 100 false with
  | Ok y => map (map this) y = [[1 # 100000000]]
  | Err _ => False
  end /\
  match iter_func func_nq jac_nq shifter_id inv_lin_1 tt [tt] tt tt false
          (init_carry 1 [[nq_h]]) with
  | Ok s => fgt (c_err s) (tol float64) = true /\
            Qlt (10000000 # 1) (this (c_err s))
  | Err _ => False
  end /\
  match while_loop func_nq jac_nq shifter_id inv_lin_1 tt [tt] tt tt float64 3 false
          (init_carry 1 [[nq_h]]) with
  | Ok s => c_iiter s = 3%Z
  | Err _ => False
  end.
Proof.
  split; [vm_compute; split; reflexivity|].
  split; [vm_compute; reflexivity|].
  split; [vm_compute; split; [reflexivity | reflexivity]|].
  vm_compute. reflexivity.
Qed.

(** C9: [p_num = 2] and a [func] written for two shifts, but [shifter_func]
    yields three: nothing checks this before the loop; the error is raised
    inside the vmapped Jacobian evaluation of the body. *)
Lemma mismatch_fails_in_vmapped_func :
  shifter_three [[0%Qc]] tt = Ok [[[0%Qc]]; [[0%Qc]]; [[0%Qc]]] /\
  jacfunc jac_two [[[0%Qc]]; [[0%Qc]]; [[0%Qc]]] [tt] tt = Err ValueError /\
  deer_iteration_helper func_two jac_two shifter_three inv_lin_1 2 tt [tt] tt tt
    [[0%Qc]] float64 10 false = Err ValueError.
Proof. split; [reflexivity|]. split; vm_compute; reflexivity. Qed.

(** C1: with [shifter_func = lambda y, q: [y + q]], [func(s) = s^2 + s] and
    [inv_lin] solving [y + G y = rhs], the loop body maps [[q]] to itself
    for every [q <> 0]: the loop's fixed point is [y*(q) = q], of derivative 1
    in the shift parameter (it is the root of [q^2 - y^2] near [q], where
    [-2y <> 0]).  At [q = 1] from the guess [[1]], [deer_iteration] returns
    [[1]], but the JVP rule with tangent 1 on [shifter_func_params] (and zero
    tangents elsewhere) returns the output tangent [[0]]. *)
Lemma jvp_ignores_shifter_param_tangent :
  (forall (q e : Qc) (g : list (list (list (list Qc)))) (i : Z), q <> 0 ->
     exists s, iter_func func_sq jac_sq shifter_add inv_lin_1 tt [tt] tt q false
                 (mkCarry e [[q]] g i) = Ok s /\ c_yt s = [[q]]) /\
  deer_iteration func_sq jac_sq shifter_add inv_lin_1 1 tt [tt] tt 1 [[1]] float64 100 false
    = Ok [[1]] /\
  deer_iteration_jvp func_sq jac_sq shifter_add inv_lin_1 1 tt [tt] tt 1 [[1]] float64 100
    false func_sq_jvp inv_lin_1_jvp tt [tt] tt 1 [[0]] = Ok ([[1]], [[0]]).
Proof.
  split; [|split].
  - intros q e g i H. unfold iter_func, linearize, jacfunc, func2, vmap_in, bind.
    cbn -[Qcplus Qcmult Qcopp Qcdiv Qcminus Qcinv Q2Qc Qc_ltb].
    eexists; split; [reflexivity|].
    cbn -[Qcplus Qcmult Qcopp Qcdiv Qcminus Qcinv Q2Qc Qc_ltb].
    do 2 f_equal.
    assert (T2 : Q2Qc 2 = 1 + 1) by (apply Qc_is_canon; vm_compute; reflexivity).
    assert (N2 : (1 + 1 : Qc) <> 0)
      by (intro E; apply (f_equal this) in E; vm_compute in E; discriminate).
    assert (D : 1 + - ((1 + 1) * (q + q) + 1) <> 0).
    { intro E. apply H.
      assert (E2 : (1 + 1) * ((1 + 1) * q) = 0)
        by (transitivity (- (1 + - ((1 + 1) * (q + q) + 1))); [ring | rewrite E; reflexivity]).
      apply Qcmult_integral in E2 as [E2|E2]; [contradiction|].
      apply Qcmult_integral in E2 as [E2|E2]; [contradiction | exact E2]. }
    rewrite T2. field. exact D.
  - vm_compute. do 3 f_equal. apply Qc_is_canon. reflexivity.
  - vm_compute. f_equal. f_equal; do 2 f_equal; apply Qc_is_canon; reflexivity.
Qed.

(** * Witnesses: the theorems with hypotheses, applied at concrete inputs *)

(** C2 at Newton's 2-cycle 0, 1, 0, ... with [max_iter = 3]. *)
Lemma deer_iteration_exhausts_budget_witness :
  fits_int32 3 = true /\ (0 <= 3)%Z /\
  traces_ok func_cyc jac_cyc shifter_id inv_lin_1 tt [tt] tt tt false
    (init_carry 1 [[0%Qc]]) = true /\
  fgt (fconst (10000000000 # 1)) (@tol Qc _ float64) = true /\
  (forall k s, (1 <= k <= Z.to_nat 3)%nat ->
     iterate func_cyc jac_cyc shifter_id inv_lin_1 tt [tt] tt tt false k
       (init_carry 1 [[0%Qc]]) = Ok s ->
     fgt (c_err s) (@tol Qc _ float64) = true) /\
  while_loop func_cyc jac_cyc shifter_id inv_lin_1 tt [tt] tt tt float64 3 false
    (init_carry 1 [[0%Qc]])
  = iterate func_cyc jac_cyc shifter_id inv_lin_1 tt [tt] tt tt false (Z.to_nat 3)
      (init_carry 1 [[0%Qc]]).
Proof.
  assert (H0 : fits_int32 3 = true) by reflexivity.
  assert (H1 : (0 <= 3)%Z) by lia.
  assert (H2 : traces_ok func_cyc jac_cyc shifter_id inv_lin_1 tt [tt] tt tt false
                 (init_carry 1 [[0%Qc]]) = true) by (vm_compute; reflexivity).
  assert (H3 : fgt (fconst (10000000000 # 1)) (@tol Qc _ float64) = true)
    by (vm_compute; reflexivity).
  assert (H4 : forall k s, (1 <= k <= Z.to_nat 3)%nat ->
     iterate func_cyc jac_cyc shifter_id inv_lin_1 tt [tt] tt tt false k
       (init_carry 1 [[0%Qc]]) = Ok s ->
     fgt (c_err s) (@tol Qc _ float64) = true).
  { intros k s Hk E. simpl in Hk.
    destruct k as [|[|[|[|k]]]]; try lia; vm_compute in E; inversion E; subst;
      vm_compute; reflexivity. }
  split; [exact H0|]. split; [exact H1|]. split; [exact H2|]. split; [exact H3|].
  split; [exact H4|].
  exact (proj1 (deer_iteration_exhausts_budget func_cyc jac_cyc shifter_id inv_lin_1
    1 tt [tt] tt tt [[0%Qc]] float64 3 false H0 H1 H2 H3 H4)).
Defined.

(** C4 at the same 2-cycle: the loop stops with error 1 > 1e-7, and then
    only because the counter reached [max_iter = 3]. *)
Lemma tolerance_by_dtype_witness :
  fits_int32 3 = true /\
  match while_loop func_cyc jac_cyc shifter_id inv_lin_1 tt [tt] tt tt float64 3 false
          (init_carry 1 [[0%Qc]]) with
  | Ok s => fgt (c_err s) (@tol Qc _ float64) = true /\ (3 <= c_iiter s)%Z
  | Err _ => False
  end.
Proof.
  pose proof (tolerance_by_dtype func_cyc jac_cyc shifter_id inv_lin_1 1 tt [tt] tt tt
    [[0%Qc]] float64 3 false) as [_ [_ T]].
  assert (H0 : fits_int32 3 = true) by reflexivity.
  split; [exact H0|].
  destruct (while_loop func_cyc jac_cyc shifter_id inv_lin_1 tt [tt] tt tt float64 3 false
              (init_carry 1 [[0%Qc]])) as [s|e] eqn:E.
  - assert (G : fgt (c_err s) (@tol Qc _ float64) = true)
      by (vm_compute in E; inversion E; subst; vm_compute; reflexivity).
    split; [exact G | exact (T H0 s eq_refl G)].
  - vm_compute in E. discriminate.
Defined.

(** C10 with [max_iter = 0]. *)
Lemma deer_iteration_max_iter_zero_witness :
  traces_ok func_cyc jac_cyc shifter_id inv_lin_1 tt [tt] tt tt false
    (init_carry 1 [[0%Qc]]) = true /\
  deer_iteration func_cyc jac_cyc shifter_id inv_lin_1 1 tt [tt] tt tt [[0%Qc]]
    float64 0 false = Ok [[0%Qc]].
Proof.
  assert (H2 : traces_ok func_cyc jac_cyc shifter_id inv_lin_1 tt [tt] tt tt false
                 (init_carry 1 [[0%Qc]]) = true) by (vm_compute; reflexivity).
  split; [exact H2|].
  exact (proj2 (deer_iteration_max_iter_zero func_cyc jac_cyc shifter_id inv_lin_1
    1 tt [tt] tt tt [[0%Qc]] float64 0 false eq_refl H2)).
Defined.

(** C9 with [p_num = 2] and a single shifted sequence: TypeError. *)
Lemma p_num_mismatch_rejected_at_trace_witness :
  shifter_id [[0%Qc]] tt = Ok [[[0%Qc]]] /\ length [[[0%Qc]]] <> 2%nat /\
  (deer_iteration_helper func_aff jac_aff shifter_id inv_lin_1 2 tt [1%Qc] tt tt
     [[0%Qc]] float64 10 false = Err TypeError \/
   (exists e, iter_func func_aff jac_aff shifter_id inv_lin_1 tt [1%Qc] tt tt false
                (init_carry 2 [[0%Qc]]) = Err e /\
              deer_iteration_helper func_aff jac_aff shifter_id inv_lin_1 2 tt [1%Qc] tt tt
                [[0%Qc]] float64 10 false = Err e)).
Proof.
  assert (H1 : shifter_id [[0%Qc]] tt = Ok [[[0%Qc]]]) by reflexivity.
  assert (H2 : length [[[0%Qc]]] <> 2%nat) by discriminate.
  split; [exact H1|]. split; [exact H2|].
  exact (p_num_mismatch_rejected_at_trace func_aff jac_aff shifter_id inv_lin_1 2 tt
    [1%Qc] tt tt [[0%Qc]] float64 10 false [[[0%Qc]]] H1 H2).
Defined.


(** C6 at the affine instance, first run of the body from [[0]]. *)
Lemma iter_func_bundle_and_rhs_witness :
  match iter_func func_aff jac_aff shifter_id inv_lin_1 tt [1%Qc] tt tt false
          (init_carry 1 [[0%Qc]]) with
  | Ok s' =>
      exists ytparams rhs yt_next,
        shifter_id [[0%Qc]] tt = Ok ytparams /\
        inv_lin_1 (c_gts s') rhs tt = Ok yt_next /\
        length (c_gts s') = length ytparams /\
        forall i x, nth_error [1%Qc] i = Some x ->
        exists J f,
          jac_aff (map (fun y => nth i y []) ytparams) x tt = Ok J /\
          func_aff (map (fun y => nth i y []) ytparams) x tt = Ok f /\
          map (fun g => nth i g []) (c_gts s') =
            map (fun k => mneg (nth k J [])) (seq 0 (length ytparams)) /\
          nth i rhs [] =
            vec_iadd f (py_sum_vec (zip_with matvec (map (fun g => nth i g []) (c_gts s'))
                                                    (map (fun y => nth i y []) ytparams)))
  | Err _ => False
  end.
Proof.
  destruct (iter_func func_aff jac_aff shifter_id inv_lin_1 tt [1%Qc] tt tt false
              (init_carry 1 [[0%Qc]])) as [s'|e] eqn:E.
  - exact (iter_func_bundle_and_rhs func_aff jac_aff shifter_id inv_lin_1 tt [1%Qc] tt tt
      false (init_carry 1 [[0%Qc]]) s' E).
  - vm_compute in E. discriminate.
Defined.

(** C7 with n = 1, ny = 1: [2 y1 + 3 y0 = 4] from [y0 = 1]. *)
Lemma solve_idae_inv_lin_solves_witness :
  forallb (fun i => sq_shape 1 (nth i [[[1]]; [[Q2Qc 2]]] []) &&
                    sq_shape 1 (nth i [[[0]]; [[Q2Qc 3]]] []) &&
                    sq_shape 1 (inv_1x1 (nth i [[[1]]; [[Q2Qc 2]]] [])) &&
                    Nat.eqb (length (nth i [[0]; [Q2Qc 4]] [])) 1) (seq 1 1) = true /\
  forallb (fun i => mat_eqb (matmul (nth i [[[1]]; [[Q2Qc 2]]] [])
                                     (inv_1x1 (nth i [[[1]]; [[Q2Qc 2]]] []))) (eye 1))
    (seq 1 1) = true /\
  exists r, solve_idae_inv_lin inv_1x1 [[[[1]]; [[Q2Qc 2]]]; [[[0]]; [[Q2Qc 3]]]]
              [[0]; [Q2Qc 4]] [[1]] = Ok r /\ length r = 2%nat /\ nth 0 r [] = [1].
Proof.
  assert (H4 : forallb (fun i => sq_shape 1 (nth i [[[1]]; [[Q2Qc 2]]] []) &&
                    sq_shape 1 (nth i [[[0]]; [[Q2Qc 3]]] []) &&
                    sq_shape 1 (inv_1x1 (nth i [[[1]]; [[Q2Qc 2]]] [])) &&
                    Nat.eqb (length (nth i [[0]; [Q2Qc 4]] [])) 1) (seq 1 1) = true)
    by (vm_compute; reflexivity).
  assert (H5 : forallb (fun i => mat_eqb (matmul (nth i [[[1]]; [[Q2Qc 2]]] [])
                                     (inv_1x1 (nth i [[[1]]; [[Q2Qc 2]]] []))) (eye 1))
                 (seq 1 1) = true) by (vm_compute; reflexivity).
  split; [exact H4|]. split; [exact H5|].
  destruct (solve_idae_inv_lin_solves inv_1x1 [[[1]]; [[Q2Qc 2]]] [[[0]]; [[Q2Qc 3]]]
              [[0]; [Q2Qc 4]] [1] 1 1 eq_refl eq_refl eq_refl H4 H5) as (r & E & L & N & _).
  exists r. split; [exact E|]. split; [exact L | exact N].
Defined.

(** C3 at the affine instance: every run of the body returns [[2]], and the
    loop started from [[0]] ends on [[2]] within two runs. *)
Lemma exact_solution_stops_by_second_iteration_witness :
  fits_int32 100 = true /\
  (forall s s', iter_func func_aff jac_aff shifter_id inv_lin_1 tt [1%Qc] tt tt false s = Ok s' ->
     c_yt s' = [[Q2Qc 2]]) /\
  match while_loop func_aff jac_aff shifter_id inv_lin_1 tt [1%Qc] tt tt float64 100 false
          (init_carry 1 [[0%Qc]]) with
  | Ok s => (c_iiter s <= 2)%Z /\ c_yt s = [[Q2Qc 2]]
  | Err _ => False
  end.
Proof.
  assert (Hex : forall s s',
    iter_func func_aff jac_aff shifter_id inv_lin_1 tt [1%Qc] tt tt false s = Ok s' ->
    c_yt s' = [[Q2Qc 2]]).
  { intros [e yt g k] s' E.
    destruct yt as [|[|v [|w r]] [|y2 yt]]; try (cbn in E; discriminate).
    unfold iter_func, linearize, jacfunc, func2, vmap_in, bind in E.
    cbn -[Qcplus Qcmult Qcopp Qcdiv Qcminus Qcinv Q2Qc half Qc_ltb] in E.
    assert (H : forall c, Ok c = Ok s' -> c_yt s' = c_yt c)
      by (intros c Hc; inversion Hc; reflexivity).
    rewrite (H _ E). cbn [c_yt]. do 2 f_equal.
    transitivity (1 / (1 + - half)).
    - f_equal. ring.
    - apply Qc_is_canon. vm_compute. reflexivity. }
  assert (H0 : fits_int32 100 = true) by reflexivity.
  split; [exact H0|]. split; [exact Hex|].
  pose proof (exact_solution_stops_by_second_iteration func_aff jac_aff shifter_id inv_lin_1
    1 tt [1%Qc] tt tt [[0%Qc]] float64 100 false [[Q2Qc 2]] H0 Hex) as T.
  destruct (while_loop func_aff jac_aff shifter_id inv_lin_1 tt [1%Qc] tt tt float64 100 false
              (init_carry 1 [[0%Qc]])) as [s|e] eqn:E.
  - destruct (T s eq_refl) as (T1 & T2 & _). split; [exact T1 | apply T2; lia].
  - vm_compute in E. discriminate.
Defined.

(** C8 at the affine instance, re-run from its output [[2]], an exact fixed
    point: one run, error 0. *)
Lemma rerun_stops_after_one_iff_witness :
  match iter_func func_aff jac_aff shifter_id inv_lin_1 tt [1%Qc] tt tt false
          (init_carry 1 [[Q2Qc 2]]) with
  | Ok s1 =>
      fits_int32 100 = true /\ (1 < 100)%Z /\
      traces_ok func_aff jac_aff shifter_id inv_lin_1 tt [1%Qc] tt tt false
        (init_carry 1 [[Q2Qc 2]]) = true /\
      c_err s1 = 0 /\
      while_loop func_aff jac_aff shifter_id inv_lin_1 tt [1%Qc] tt tt float64 100 false
        (init_carry 1 [[Q2Qc 2]]) = Ok s1
  | Err _ => False
  end.
Proof.
  destruct (iter_func func_aff jac_aff shifter_id inv_lin_1 tt [1%Qc] tt tt false
              (init_carry 1 [[Q2Qc 2]])) as [s1|e] eqn:B1.
  - assert (H0 : fits_int32 100 = true) by reflexivity.
    assert (H1 : (1 < 100)%Z) by lia.
    assert (H2 : traces_ok func_aff jac_aff shifter_id inv_lin_1 tt [1%Qc] tt tt false
                   (init_carry 1 [[Q2Qc 2]]) = true) by (vm_compute; reflexivity).
    assert (Y : c_yt s1 = [[Q2Qc 2]]).
    { vm_compute in B1. inversion B1. simpl. do 2 f_equal. }
    destruct (rerun_stops_after_one_iff func_aff jac_aff shifter_id inv_lin_1 1 tt [1%Qc]
                tt tt [[Q2Qc 2]] float64 100 false s1 H0 H1 H2 B1) as (_ & _ & T).
    destruct (T Y) as [T1 T2].
    split; [exact H0|]. split; [exact H1|]. split; [exact H2|]. split; [exact T1 | exact T2].
  - vm_compute in B1. discriminate.
Defined.

(** The empty initial guess at the affine instance: ValueError. *)
Lemma deer_iteration_empty_guess_raises_witness :
  concat (@nil (list Qc)) = [] /\
  deer_iteration func_aff jac_aff shifter_id inv_lin_1 1 tt [] tt tt [] float64 10 false
  = Err ValueError.
Proof.
  assert (H : concat (@nil (list Qc)) = []) by reflexivity.
  split; [exact H|].
  destruct (deer_iteration_empty_guess_raises func_aff jac_aff shifter_id inv_lin_1 1 tt []
              tt tt [] float64 10 false H) as [_ T].
  destruct (linearize func_aff jac_aff shifter_id tt [] tt []) as [l|e] eqn:L;
    [|vm_compute in L; discriminate].
  destruct (inv_lin_1 (snd (fst l)) (snd l) tt) as [yn|e] eqn:I.
  - exact (T l yn eq_refl I).
  - vm_compute in L. inversion L; subst. vm_compute in I. discriminate.
Defined.

(** The affine instance from [[0]]: the returned bundle and estimate come
    from one run of the body. *)
Lemma deer_helper_bundle_at_previous_estimate_witness :
  match deer_iteration_helper func_aff jac_aff shifter_id inv_lin_1 1 tt [1%Qc] tt tt
          [[0%Qc]] float64 100 false with
  | Ok (yt, gts) =>
      fits_int32 100 = true /\ (1 <= 100)%Z /\ fgt (fconst (10000000000 # 1)) (@tol Qc _ float64) = true /\
      exists yprev ytparams rhs yn,
        linearize func_aff jac_aff shifter_id tt [1%Qc] tt yprev = Ok (ytparams, gts, rhs) /\
        inv_lin_1 gts rhs tt = Ok yn /\ yt = yn
  | Err _ => False
  end.
Proof.
  destruct (deer_iteration_helper func_aff jac_aff shifter_id inv_lin_1 1 tt [1%Qc] tt tt
              [[0%Qc]] float64 100 false) as [[yt gts]|e] eqn:Hh.
  - assert (H0 : fits_int32 100 = true) by reflexivity.
    assert (H1 : (1 <= 100)%Z) by lia.
    assert (H2 : fgt (fconst (10000000000 # 1)) (@tol Qc _ float64) = true)
      by (vm_compute; reflexivity).
    split; [exact H0|]. split; [exact H1|]. split; [exact H2|].
    exact (deer_helper_bundle_at_previous_estimate func_aff jac_aff shifter_id inv_lin_1 1 tt
      [1%Qc] tt tt [[0%Qc]] float64 100 false yt gts H0 H1 H2 Hh).
  - vm_compute in Hh. discriminate.
Defined.

(** A shifted sequence of two samples against one input: ValueError. *)
Lemma deer_iteration_sample_count_mismatch_witness :
  shifter_id [[0%Qc]; [0%Qc]] tt = Ok [[[0%Qc]; [0%Qc]]] /\
  existsb (fun y => negb (Nat.eqb (length y) (length [1%Qc]))) [[[0%Qc]; [0%Qc]]] = true /\
  deer_iteration func_aff jac_aff shifter_id inv_lin_1 1 tt [1%Qc] tt tt
    [[0%Qc]; [0%Qc]] float64 10 false = Err ValueError.
Proof.
  assert (H1 : shifter_id [[0%Qc]; [0%Qc]] tt = Ok [[[0%Qc]; [0%Qc]]]) by reflexivity.
  assert (H2 : existsb (fun y => negb (Nat.eqb (length y) (length [1%Qc])))
                 [[[0%Qc]; [0%Qc]]] = true) by reflexivity.
  split; [exact H1|]. split; [exact H2|].
  exact (deer_iteration_sample_count_mismatch func_aff jac_aff shifter_id inv_lin_1 1 tt
    [1%Qc] tt tt [[0%Qc]; [0%Qc]] float64 10 false [[[0%Qc]; [0%Qc]]] H1 H2).
Defined.


(** Linearity at two samples, ny = 1, with the inverse of (1, 1) matrices. *)
Lemma solve_idae_inv_lin_linear_witness :
  length [[0%Qc]; [1%Qc]] = length [[Q2Qc 5]; [Q2Qc 2]] /\
  (forall r, In r [[0%Qc]; [1%Qc]] -> length r = 1%nat) /\
  (forall r, In r [[Q2Qc 5]; [Q2Qc 2]] -> length r = 1%nat) /\
  length [1%Qc] = 1%nat /\ length [Q2Qc 4] = 1%nat /\
  (forall M, In M (tl [[[1%Qc]]; [[Q2Qc 2]]]) -> length (inv_1x1 M) = 1%nat) /\
  exists r1 r2,
    solve_idae_inv_lin inv_1x1 [[[[1%Qc]]; [[Q2Qc 2]]]; [[[1%Qc]]; [[Q2Qc 3]]]]
      [[0%Qc]; [1%Qc]] [[1%Qc]] = Ok r1 /\
    solve_idae_inv_lin inv_1x1 [[[[1%Qc]]; [[Q2Qc 2]]]; [[[1%Qc]]; [[Q2Qc 3]]]]
      [[Q2Qc 5]; [Q2Qc 2]] [[Q2Qc 4]] = Ok r2 /\
    solve_idae_inv_lin inv_1x1 [[[[1%Qc]]; [[Q2Qc 2]]]; [[[1%Qc]]; [[Q2Qc 3]]]]
      (seq_add [[0%Qc]; [1%Qc]] [[Q2Qc 5]; [Q2Qc 2]]) [vadd [1%Qc] [Q2Qc 4]] =
      Ok (seq_add r1 r2) /\
    solve_idae_inv_lin inv_1x1 [[[[1%Qc]]; [[Q2Qc 2]]]; [[[1%Qc]]; [[Q2Qc 3]]]]
      (map (vscale (Q2Qc 3)) [[0%Qc]; [1%Qc]]) [vscale (Q2Qc 3) [1%Qc]] =
      Ok (map (vscale (Q2Qc 3)) r1).
Proof.
  assert (H1 : length [[0%Qc]; [1%Qc]] = length [[Q2Qc 5]; [Q2Qc 2]]) by reflexivity.
  assert (H2 : forall r, In r [[0%Qc]; [1%Qc]] -> length r = 1%nat)
    by (intros r Hr; simpl in Hr; destruct Hr as [<-|[<-|[]]]; reflexivity).
  assert (H3 : forall r, In r [[Q2Qc 5]; [Q2Qc 2]] -> length r = 1%nat)
    by (intros r Hr; simpl in Hr; destruct Hr as [<-|[<-|[]]]; reflexivity).
  assert (H4 : length [1%Qc] = 1%nat) by reflexivity.
  assert (H5 : length [Q2Qc 4] = 1%nat) by reflexivity.
  assert (H6 : forall M, In M (tl [[[1%Qc]]; [[Q2Qc 2]]]) -> length (inv_1x1 M) = 1%nat)
    by (intros M HM; simpl in HM; destruct HM as [<-|[]]; reflexivity).
  split; [exact H1|]. split; [exact H2|]. split; [exact H3|]. split; [exact H4|].
  split; [exact H5|]. split; [exact H6|].
  exact (solve_idae_inv_lin_linear inv_1x1 [[[1%Qc]]; [[Q2Qc 2]]] [[[1%Qc]]; [[Q2Qc 3]]]
    [[0%Qc]; [1%Qc]] [[Q2Qc 5]; [Q2Qc 2]] [1%Qc] [Q2Qc 4] (Q2Qc 3) 1 H1 H2 H3 H4 H5 H6).
Defined.

(** The backward-Euler residual at times 0, 1, 3 with [func = dydt + y]. *)
Lemma compute_func2_backward_euler_witness :
  length [[1%Qc]; [Q2Qc 2]; [Q2Qc 4]] = length [0%Qc; 1%Qc; Q2Qc 3] /\
  (2 <= length [0%Qc; 1%Qc; Q2Qc 3])%nat /\
  (forall i, (0 < i < length [0%Qc; 1%Qc; Q2Qc 3])%nat ->
     nth i [0%Qc; 1%Qc; Q2Qc 3] 0 <> nth (i - 1) [0%Qc; 1%Qc; Q2Qc 3] 0) /\
  compute_func2 (fun d y (_ : unit) (_ : unit) => Ok (vadd d y))
    (map (fun s => nth 2 s []) (linfunc [[1%Qc]; [Q2Qc 2]; [Q2Qc 4]] tt))
    (nth 2 (compute_dt [0%Qc; 1%Qc; Q2Qc 3]) 0, tt) tt =
  Ok (vadd (map (fun a => a / (Q2Qc 3 - 1)) (vsub [Q2Qc 4] [Q2Qc 2])) [Q2Qc 4]).
Proof.
  assert (H1 : length [[1%Qc]; [Q2Qc 2]; [Q2Qc 4]] = length [0%Qc; 1%Qc; Q2Qc 3])
    by reflexivity.
  assert (H2 : (2 <= length [0%Qc; 1%Qc; Q2Qc 3])%nat) by (simpl; lia).
  assert (H3 : forall i, (0 < i < length [0%Qc; 1%Qc; Q2Qc 3])%nat ->
     nth i [0%Qc; 1%Qc; Q2Qc 3] 0 <> nth (i - 1) [0%Qc; 1%Qc; Q2Qc 3] 0).
  { intros i Hi. simpl in Hi. destruct i as [|[|[|i]]]; try lia; intro E;
      apply (f_equal this) in E; vm_compute in E; discriminate. }
  split; [exact H1|]. split; [exact H2|]. split; [exact H3|].
  destruct (compute_func2_backward_euler (fun d y (_ : unit) (_ : unit) => Ok (vadd d y))
    [0%Qc; 1%Qc; Q2Qc 3] [[1%Qc]; [Q2Qc 2]; [Q2Qc 4]] tt tt H1 H2 H3) as [_ T].
  exact (T 2%nat tt ltac:(simpl; lia)).
Defined.
